(** * Music-App (V14.py): queue, playback, metadata and lyrics core

    A shallow embedding of the non-GUI logic of [V14.py]: the [Track]
    model, the VLC wrapper [Player], [read_metadata], the library table
    and its asynchronous row updates, the recommender, the LRC parser,
    the lyrics highlighter, and the queue operations and state
    persistence of [MainWindow].

    Conventions.
    - Python [int] is [Z]; Python [float] values that occur here (track
      durations, playback positions, lyric timestamps) are finite and are
      held as the rational numbers they are, in [Q].  Where the code
      computes with floats on lyric timestamps, the arithmetic is that
      of IEEE 754 binary64 (primitive floats).
    - Python [str] is [string], holding the UTF-8 encoding of the text.
    - Code that can raise lives in [result]; [try/except] is written out.
    - Widgets are modelled by the data they hold (table rows, texts). *)

From Stdlib Require Import ZArith QArith Qround Qminmax String Ascii List.
From Stdlib Require Import Permutation Sorted Lia Qabs.
From Stdlib Require PrimFloat FloatOps SpecFloat Uint63.
From stdpp Require Import base list gmap strings.

Local Open Scope Z_scope.

(* ================================================================== *)
(** ** Python runtime: exceptions, indexing, strings                   *)
(* ================================================================== *)

Inductive exn : Type :=
  | IndexError
  | ValueError
  | AttributeError
  | StopIteration
  | MutagenError
  | OSError.

Inductive result (A : Type) : Type :=
  | Ok (a : A)
  | Raise (e : exn).
Arguments Ok {A} a.
Arguments Raise {A} e.

#[global] Instance result_ret : MRet result := fun A a => Ok a.

#[global] Instance result_bind : MBind result := fun A B k r =>
  match r with
  | Ok a => k a
  | Raise e => Raise e
  end.

#[global] Instance result_fmap : FMap result := fun A B f r =>
  match r with
  | Ok a => Ok (f a)
  | Raise e => Raise e
  end.

Definition raises {A} (r : result A) : bool :=
  match r with Ok _ => false | Raise _ => true end.

(** [len(l)] as a Python integer. *)
Definition len {A} (l : list A) : Z := Z.of_nat (length l).

(** [l[i]]: negative indices count from the end, out of range raises. *)
Definition py_index {A} (l : list A) (i : Z) : result A :=
  let j := if i <? 0 then i + len l else i in
  if (0 <=? j) && (j <? len l)
  then match l !! Z.to_nat j with
       | Some x => Ok x
       | None => Raise IndexError
       end
  else Raise IndexError.

(** [next(i for i, x in enumerate(l) if p x)]. *)
Fixpoint next_index {A} (p : A -> bool) (l : list A) (i : nat) : result nat :=
  match l with
  | [] => Raise StopIteration
  | x :: r => if p x then Ok i else next_index p r (S i)
  end.

(** [while cond: body], run for at most [fuel] tests of the condition;
    [None] when the fuel does not reach the end of the loop. *)
Fixpoint while_loop {S : Type} (fuel : nat) (cond : S -> result bool)
    (body : S -> result S) (s : S) : option (result S) :=
  match fuel with
  | O => None
  | Datatypes.S f =>
      match cond s with
      | Raise e => Some (Raise e)
      | Ok false => Some (Ok s)
      | Ok true =>
          match body s with
          | Raise e => Some (Raise e)
          | Ok s' => while_loop f cond body s'
          end
      end
  end.

(** [int(x)] on a float: truncation towards zero. *)
Definition py_int (x : Q) : Z :=
  if Qle_bool 0 x then Qfloor x else Qceiling x.

Definition Qgt_bool (x y : Q) : bool := negb (Qle_bool x y).

Section Strings.
Local Open Scope string_scope.

Fixpoint sdrop (n : nat) (s : string) : string :=
  match n, s with
  | O, _ => s
  | S k, EmptyString => EmptyString
  | S k, String _ r => sdrop k r
  end.

Fixpoint stake (n : nat) (s : string) : string :=
  match n, s with
  | O, _ => EmptyString
  | S k, EmptyString => EmptyString
  | S k, String c r => String c (stake k r)
  end.

(** [s.rfind(c)] for a one-character [c], scanning from index [i]
    with [best] the last hit so far; -1 when there is none. *)
Fixpoint rfind_from (c : ascii) (s : string) (i best : Z) : Z :=
  match s with
  | EmptyString => best
  | String a r => rfind_from c r (i + 1) (if Ascii.eqb a c then i else best)
  end.

Definition rfind (c : ascii) (s : string) : Z := rfind_from c s 0 (-1).

Fixpoint all_char (c : ascii) (s : string) : bool :=
  match s with
  | EmptyString => true
  | String a r => Ascii.eqb a c && all_char c r
  end.

(** [posixpath.basename(p)]: [p[p.rfind('/')+1:]]. *)
Definition basename (p : string) : string :=
  sdrop (Z.to_nat (rfind "/" p + 1)) p.

(** [posixpath.splitext(p)[0]]: cut at the last dot that comes after
    the last separator, unless only dots precede it in the file name. *)
Definition splitext_root (p : string) : string :=
  let sepIndex := rfind "/" p in
  let dotIndex := rfind "." p in
  if (sepIndex <? dotIndex)%Z
  then
    let name_before_dot :=
      stake (Z.to_nat (dotIndex - (sepIndex + 1)))
            (sdrop (Z.to_nat (sepIndex + 1)) p) in
    if all_char "." name_before_dot then p
    else stake (Z.to_nat dotIndex) p
  else p.

(** [os.path.splitext(os.path.basename(path))[0]]. *)
Definition file_stem (path : string) : string :=
  splitext_root (basename path).

(** [s.replace(old, new)] for a non-empty [old]: non-overlapping
    occurrences, leftmost first.  [skip] counts the characters of a
    match that are still to be consumed. *)
Fixpoint replace_from (old new : string) (skip : nat) (s : string) : string :=
  match s with
  | EmptyString => EmptyString
  | String c r =>
      match skip with
      | S k => replace_from old new k r
      | O =>
          if String.prefix old s
          then new ++ replace_from old new (String.length old - 1) r
          else String c (replace_from old new 0 r)
      end
  end.

Definition replace (old new s : string) : string := replace_from old new 0 s.
End Strings.

(* ================================================================== *)
(** ** models: [Track]                                                 *)
(* ================================================================== *)

Record Track : Type := mkTrack {
  path : string;
  title : string;
  artist : string;
  album : string;
  genre : string;
  duration : Q
}.

(** A JSON track record.  A text key may be missing, which is why
    [from_dict] reads each key with an empty-string default.  The records
    modelled are those that carry a number under [duration], as every
    record written by [to_dict] does: for a record without that key
    [d.get(k, "")] puts the empty string into the numeric field of the
    [Track], a value that [Track] here cannot hold, and the type leaves
    such records out. *)
Record track_dict : Type := mkTrackDict {
  d_path : option string;
  d_title : option string;
  d_artist : option string;
  d_album : option string;
  d_genre : option string;
  d_duration : Q
}.

Definition to_dict (t : Track) : track_dict :=
  {| d_path := Some (path t); d_title := Some (title t);
     d_artist := Some (artist t); d_album := Some (album t);
     d_genre := Some (genre t); d_duration := duration t |}.

(** [Track.from_dict].  A missing text key reads as the empty string. *)
Definition from_dict (d : track_dict) : Track :=
  {| path := default EmptyString (d_path d);
     title := default EmptyString (d_title d);
     artist := default EmptyString (d_artist d);
     album := default EmptyString (d_album d);
     genre := default EmptyString (d_genre d);
     duration := d_duration d |}.

(* ================================================================== *)
(** ** player (vlc wrapper)                                            *)
(* ================================================================== *)

(** Calls made on the VLC media player, oldest first.  ([pause], [stop]
    and [set_volume] only forward to the engine and take no part in the
    queue logic; they are left out.) *)
Inductive vlc_call : Type :=
  | SetMedia (p : string)
  | VlcPlay
  | SetTime (ms : Z).

(** What the wrapper relies on from [vlc.MediaPlayer]: the media that is
    set, whether it is playing, and the clock in milliseconds. *)
Record MediaPlayer : Type := mkMediaPlayer {
  mp_media : option string;
  mp_playing : bool;
  mp_time : Z;
  mp_length : Z;
  mp_calls : list vlc_call
}.

Inductive signal : Type :=
  | trackFinished.

Module Player.
Record t : Type := mk {
  _mp : MediaPlayer;
  _repeat : bool
}.

Definition init : t :=
  {| _mp := {| mp_media := None; mp_playing := false; mp_time := -1;
               mp_length := -1; mp_calls := [] |};
     _repeat := false |}.

Definition with_mp (f : MediaPlayer -> MediaPlayer) (p : t) : t :=
  {| _mp := f (_mp p); _repeat := _repeat p |}.

(** [media_new] builds the media from the path without opening the file,
    so the [except] branch of [load] is not modelled. *)
Definition load (path : string) (p : t) : t :=
  with_mp (fun m =>
    {| mp_media := Some path; mp_playing := mp_playing m;
       mp_time := mp_time m; mp_length := mp_length m;
       mp_calls := mp_calls m ++ [SetMedia path] |}) p.

Definition play (p : t) : t :=
  with_mp (fun m =>
    {| mp_media := mp_media m; mp_playing := true;
       mp_time := mp_time m; mp_length := mp_length m;
       mp_calls := mp_calls m ++ [VlcPlay] |}) p.

Definition is_playing (p : t) : bool := mp_playing (_mp p).

(** [max(0.0, float(get_time() or 0)/1000.0)] *)
Definition get_position_seconds (p : t) : Q :=
  Qmax 0 (inject_Z (mp_time (_mp p)) / 1000).

Definition get_length_seconds (p : t) : Q :=
  Qmax 0 (inject_Z (mp_length (_mp p)) / 1000).

(** [set_time(int(s*1000))] *)
Definition seek_seconds (s : Q) (p : t) : t :=
  let ms := py_int (s * 1000) in
  with_mp (fun m =>
    {| mp_media := mp_media m; mp_playing := mp_playing m;
       mp_time := ms; mp_length := mp_length m;
       mp_calls := mp_calls m ++ [SetTime ms] |}) p.

Definition toggle_repeat (p : t) : t :=
  {| _mp := _mp p; _repeat := negb (_repeat p) |}.

(** The end-of-track callback of the engine: the new player and the
    signals it emits. *)
Definition _on_end (p : t) : t * list signal :=
  if _repeat p
  then (play (seek_seconds 0 p), [])
  else (p, [trackFinished]).
End Player.

(* ================================================================== *)
(** ** utility: metadata                                               *)
(* ================================================================== *)

(** What [mutagen] answers for a file: [MP3(path).info.length] and the
    [EasyID3(path)] tag dictionary (key to list of values).  Either
    constructor may raise. *)
Record Mutagen : Type := mkMutagen {
  MP3_length : string -> result Q;
  EasyID3 : string -> result (gmap string (list string))
}.

(** The local variables of [read_metadata].  Assignments made before an
    exception survive it, so the locals are threaded through [Raise]. *)
Record md_locals : Type := mkLocals {
  l_title : string;
  l_artist : string;
  l_album : string;
  l_genre : string;
  l_dur : Q
}.

Definition MD (A : Type) : Type := md_locals -> result A * md_locals.

#[global] Instance md_ret : MRet MD := fun A a s => (Ok a, s).

#[global] Instance md_bind : MBind MD := fun A B k m s =>
  match m s with
  | (Ok a, s') => k a s'
  | (Raise e, s') => (Raise e, s')
  end.

Definition md_lift {A} (r : result A) : MD A := fun s => (r, s).

(** [try: m except Exception: h] *)
Definition md_try (m : MD unit) (h : MD unit) : MD unit :=
  fun s =>
    match m s with
    | (Ok a, s') => (Ok a, s')
    | (Raise _, s') => h s'
    end.

Definition set_title (v : string) : MD unit := fun s =>
  (Ok tt, {| l_title := v; l_artist := l_artist s; l_album := l_album s;
             l_genre := l_genre s; l_dur := l_dur s |}).
Definition set_artist (v : string) : MD unit := fun s =>
  (Ok tt, {| l_title := l_title s; l_artist := v; l_album := l_album s;
             l_genre := l_genre s; l_dur := l_dur s |}).
Definition set_album (v : string) : MD unit := fun s =>
  (Ok tt, {| l_title := l_title s; l_artist := l_artist s; l_album := v;
             l_genre := l_genre s; l_dur := l_dur s |}).
Definition set_genre (v : string) : MD unit := fun s =>
  (Ok tt, {| l_title := l_title s; l_artist := l_artist s; l_album := l_album s;
             l_genre := v; l_dur := l_dur s |}).
Definition set_dur (v : Q) : MD unit := fun s =>
  (Ok tt, {| l_title := l_title s; l_artist := l_artist s; l_album := l_album s;
             l_genre := l_genre s; l_dur := v |}).
Definition get_title : MD string := fun s => (Ok (l_title s), s).

(** [eid.get(key, dflt)[0]] *)
Definition eid_first (eid : gmap string (list string)) (key : string)
    (dflt : list string) : result string :=
  py_index (default dflt (eid !! key)) 0.

Definition read_metadata_body (mu : Mutagen) (path : string) : MD unit :=
  md_try
    (audio_length ← md_lift (MP3_length mu path);
     set_dur audio_length;;
     md_try
       (eid ← md_lift (EasyID3 mu path);
        t ← md_lift (eid_first eid "title" [file_stem path]);
        set_title t;;
        (* Remove any (Lyrics) in the titles *)
        t ← get_title; set_title (replace "(Lyrics)" EmptyString t);;
        t ← get_title; set_title (replace "(Animated Video)" EmptyString t);;
        t ← get_title; set_title (replace "(Official Video)" EmptyString t);;
        a ← md_lift (eid_first eid "artist" ["Unknown Artist"%string]);
        set_artist a;;
        a ← md_lift (eid_first eid "album" [EmptyString]);
        set_album a;;
        g ← md_lift (eid_first eid "genre" [EmptyString]);
        set_genre g)
       (set_title (file_stem path)))
    (set_title (file_stem path)).

Definition read_metadata (mu : Mutagen) (path : string)
    : result (string * string * string * string * Q) :=
  let init := {| l_title := EmptyString; l_artist := EmptyString;
                 l_album := EmptyString; l_genre := EmptyString;
                 l_dur := 0%Q |} in
  match read_metadata_body mu path init with
  | (Ok _, s) => Ok (l_title s, l_artist s, l_album s, l_genre s, l_dur s)
  | (Raise e, _) => Raise e
  end.

(* ================================================================== *)
(** ** Library table                                                   *)
(* ================================================================== *)

Section Numbers.
Local Open Scope string_scope.

Definition is_digit (c : ascii) : bool :=
  let n := nat_of_ascii c in (48 <=? n)%nat && (n <=? 57)%nat.

Definition digit_val (c : ascii) : Z := Z.of_nat (nat_of_ascii c) - 48.

Fixpoint all_digits (s : string) : bool :=
  match s with
  | EmptyString => true
  | String c r => is_digit c && all_digits r
  end.

Fixpoint digits_value (acc : Z) (s : string) : Z :=
  match s with
  | EmptyString => acc
  | String c r => digits_value (10 * acc + digit_val c) r
  end.

(** [int(s)] on a string: an optional sign and decimal digits.  (Python
    also accepts surrounding blanks and underscores; the strings parsed
    in this program are produced by its own formatter.) *)
Definition int_of_string (s : string) : result Z :=
  let unsigned (d : string) : result Z :=
    match d with
    | EmptyString => Raise ValueError
    | _ => if all_digits d then Ok (digits_value 0 d) else Raise ValueError
    end in
  match s with
  | String "-" d => v ← unsigned d; Ok (- v)
  | String "+" d => unsigned d
  | _ => unsigned s
  end.

(** [s.split(sep)] for a one-character separator. *)
Fixpoint split_on (sep : ascii) (s : string) : list string :=
  match s with
  | EmptyString => [EmptyString]
  | String c r =>
      if Ascii.eqb c sep then EmptyString :: split_on sep r
      else match split_on sep r with
           | [] => [String c EmptyString]
           | w :: ws => String c w :: ws
           end
  end.

(** [str(n)] for a natural number: the decimal digits, least significant
    first into the accumulator.  [fuel] bounds the number of digits. *)
Fixpoint str_nat_fuel (fuel : nat) (n : nat) (acc : string) : string :=
  match fuel with
  | O => acc
  | S f =>
      let acc' := String (ascii_of_nat (48 + n mod 10)) acc in
      if (n <? 10)%nat then acc' else str_nat_fuel f (n / 10) acc'
  end.

Definition str_Z (z : Z) : string :=
  if (z <? 0)%Z
  then String "-"
         (str_nat_fuel (S (Z.to_nat (- z))) (Z.to_nat (- z)) EmptyString)
  else str_nat_fuel (S (Z.to_nat z)) (Z.to_nat z) EmptyString.

(** [f"{n:02d}"] *)
Definition str_02d (z : Z) : string :=
  let s := str_Z z in
  if (String.length s <? 2)%nat then "0" ++ s else s.

(** [f"{int(dur//60)}:{int(dur%60):02d}"] *)
Definition format_duration (dur : Q) : string :=
  let minutes := Qfloor (dur / 60) in
  let seconds := Qfloor (dur - 60 * inject_Z minutes) in
  str_Z minutes ++ ":" ++ str_02d seconds.
End Numbers.

Section SearchText.
Local Open Scope string_scope.

(** [c.lower()] for a code point below 256: the ASCII capitals and the
    Latin-1 capitals (192 to 222 without the multiplication sign). *)
Definition lower_char (c : ascii) : ascii :=
  let n := nat_of_ascii c in
  if ((65 <=? n)%nat && (n <=? 90)%nat)
     || ((192 <=? n)%nat && (n <=? 222)%nat && negb (n =? 215)%nat)
  then ascii_of_nat (n + 32)
  else c.

Fixpoint lower (s : string) : string :=
  match s with
  | EmptyString => EmptyString
  | String c r => String (lower_char c) (lower r)
  end.

(** [sub in s] *)
Fixpoint contains (sub s : string) : bool :=
  String.prefix sub s
  || match s with
     | EmptyString => false
     | String _ r => contains sub r
     end.
End SearchText.

(** [d["path"]] on a record without that key. *)
Inductive key_error : Type :=
  | KeyError (key : string).

(** The four fields that the context menu edits. *)
Inductive edit_field : Type :=
  | EditTitle
  | EditArtist
  | EditAlbum
  | EditGenre.

Record lib_row : Type := mkLibRow {
  c_title : string;
  c_artist : string;
  c_album : string;
  c_genre : string;
  c_duration : string;
  c_path : string
}.

(** The queued call of [_update_row]: the row index and the strings read
    by the worker. *)
Record row_update : Type := mkRowUpdate {
  u_row : Z;
  u_title : string;
  u_artist : string;
  u_album : string;
  u_genre : string;
  u_dur_str : string
}.

(** [lst[i] = f(lst[i])] for an index known to be in range. *)
Definition list_alter_Z {A} (f : A -> A) (i : Z) (l : list A) : list A :=
  alter f (Z.to_nat i) l.

Module LibraryPane.
Record t : Type := mk {
  folders : list string;
  table : list lib_row;
  _tracks : list Track
}.

Definition rowCount (lib : t) : Z := len (table lib).

Definition tracks (lib : t) : list Track := _tracks lib.

(** [load], given the [.mp3] paths that walking [folders] finds: one
    placeholder row and one placeholder [Track] per path.  The paths are
    also what the metadata thread is started on. *)
Definition load (paths : list string) (lib : t) : t :=
  {| folders := folders lib;
     table := map (fun p =>
                {| c_title := file_stem p; c_artist := "Unknown Artist";
                   c_album := EmptyString; c_genre := EmptyString;
                   c_duration := EmptyString; c_path := p |}) paths;
     _tracks := map (fun p =>
                mkTrack p (file_stem p) "Unknown Artist" EmptyString
                        EmptyString 0%Q) paths |}.

(** One iteration of the loop of [_load_metadata_async] for [(row, path)]:
    [None] when the loop breaks, otherwise the queued update. *)
Definition _load_metadata_async_step (mu : Mutagen) (lib : t)
    (row : nat) (p : string) : option (result row_update) :=
  if (len (_tracks lib) <=? Z.of_nat row)%Z then None
  else Some (
    '(title, artist, album, genre, dur) ← read_metadata mu p;
    Ok {| u_row := Z.of_nat row; u_title := title; u_artist := artist;
          u_album := album; u_genre := genre;
          u_dur_str := format_duration dur |}).

(** [int(dur_str.split(":")[0])*60 + int(dur_str.split(":")[1])], or 0.0
    when that raises. *)
Definition parse_duration (dur_str : string) : Q :=
  let r :=
    a ← py_index (split_on ":" dur_str) 0;
    m ← int_of_string a;
    b ← py_index (split_on ":" dur_str) 1;
    s ← int_of_string b;
    Ok (m * 60 + s)%Z in
  match r with
  | Ok v => inject_Z v
  | Raise _ => 0%Q
  end.

Definition _update_row (u : row_update) (lib : t) : result t :=
  let row := u_row u in
  if (rowCount lib <=? row)%Z then Ok lib  (* row no longer exists *)
  else if (row <? 0)%Z then Raise AttributeError  (* item(row, 0) is None *)
  else
    let table' :=
      list_alter_Z (fun r =>
        {| c_title := u_title u; c_artist := u_artist u;
           c_album := u_album u; c_genre := u_genre u;
           c_duration := u_dur_str u; c_path := c_path r |}) row (table lib) in
    (* Also update Track object safely *)
    let tracks' :=
      if (row <? len (_tracks lib))%Z
      then list_alter_Z (fun t =>
             mkTrack (path t) (u_title u) (u_artist u) (u_album u)
                     (u_genre u) (parse_duration (u_dur_str u)))
             row (_tracks lib)
      else _tracks lib in
    Ok {| folders := folders lib; table := table'; _tracks := tracks' |}.

(** [_apply_filter]: for every row whether it ends up hidden. *)
Definition _apply_filter (text : string) (lib : t) : list bool :=
  let text := lower text in
  map (fun r =>
         let title := lower (c_title r) in
         let artist := lower (c_artist r) in
         let matches := contains text title || contains text artist in
         negb matches)
      (table lib).

(** [_add_folder]; [d] is what the folder dialog returns (empty when it
    is cancelled) and [walk] gives the [.mp3] paths under a folder list. *)
Definition _add_folder (walk : list string -> list string) (d : string)
    (lib : t) : t :=
  if bool_decide (d <> EmptyString) && bool_decide (d ∉ folders lib)
  then
    let fs := folders lib ++ [d] in
    load (walk fs) {| folders := fs; table := table lib; _tracks := _tracks lib |}
  else lib.

(** [_like_track]; [file] is the content of the liked-songs file, [None]
    when it does not exist.  The answer is the content of the file after
    the call, or the [KeyError] of an entry without a path. *)
Definition _like_track (track : Track) (file : option (list track_dict))
    : key_error + option (list track_dict) :=
  let data := default [] file in
  let paths :=
    foldr (fun d acc =>
             match d_path d, acc with
             | Some p, inr ps => inr (p :: ps)
             | None, _ => inl (KeyError "path")
             | _, inl e => inl e
             end) (inr []) data in
  match paths with
  | inl e => inl e
  | inr ps =>
      if bool_decide (path track ∉ ps)
      then inr (Some (data ++ [to_dict track]))
      else inr file
  end.

Definition set_field (f : edit_field) (v : string) (t0 : Track) : Track :=
  match f with
  | EditTitle => mkTrack (path t0) v (artist t0) (album t0) (genre t0) (duration t0)
  | EditArtist => mkTrack (path t0) (title t0) v (album t0) (genre t0) (duration t0)
  | EditAlbum => mkTrack (path t0) (title t0) (artist t0) v (genre t0) (duration t0)
  | EditGenre => mkTrack (path t0) (title t0) (artist t0) (album t0) v (duration t0)
  end.

Definition set_cell (f : edit_field) (v : string) (r : lib_row) : lib_row :=
  match f with
  | EditTitle => mkLibRow v (c_artist r) (c_album r) (c_genre r) (c_duration r) (c_path r)
  | EditArtist => mkLibRow (c_title r) v (c_album r) (c_genre r) (c_duration r) (c_path r)
  | EditAlbum => mkLibRow (c_title r) (c_artist r) v (c_genre r) (c_duration r) (c_path r)
  | EditGenre => mkLibRow (c_title r) (c_artist r) (c_album r) v (c_duration r) (c_path r)
  end.

(** [_edit_field]; [new] and [ok] are what the input dialog returns.
    The track is read first, so a row beyond the tracks raises
    [IndexError]; a row outside the table has no item to write to. *)
Definition _edit_field (row : Z) (f : edit_field) (new : string) (ok : bool)
    (lib : t) : result t :=
  _ ← py_index (_tracks lib) row;
  if ok && bool_decide (new <> EmptyString)
  then
    if (0 <=? row)%Z && (row <? rowCount lib)%Z
    then Ok {| folders := folders lib;
               table := list_alter_Z (set_cell f new) row (table lib);
               _tracks := list_alter_Z (set_field f new) row (_tracks lib) |}
    else Raise AttributeError
  else Ok lib.

(** The loop of [_load_metadata_async] over [enumerate(paths)] from
    [row] on, while the library is not rescanned: the updates it queues.
    It stops at the first row beyond the tracks. *)
Fixpoint _load_metadata_async_from (mu : Mutagen) (lib : t) (row : nat)
    (paths : list string) : list row_update :=
  match paths with
  | [] => []
  | p :: rest =>
      match _load_metadata_async_step mu lib row p with
      | Some (Ok u) => u :: _load_metadata_async_from mu lib (S row) rest
      | Some (Raise _) => []
      | None => []
      end
  end.

Definition _load_metadata_async (mu : Mutagen) (lib : t) (paths : list string)
    : list row_update :=
  _load_metadata_async_from mu lib 0 paths.

(** The queued calls of [_update_row] run in the order they were posted. *)
Fixpoint apply_updates (us : list row_update) (lib : t) : result t :=
  match us with
  | [] => Ok lib
  | u :: rest => lib' ← _update_row u lib; apply_updates rest lib'
  end.
End LibraryPane.

(* ================================================================== *)
(** ** Sorting as Python does it                                       *)
(* ================================================================== *)

(** [sorted] and [heapq.nlargest] are stable: elements that compare equal
    keep their input order.  A stable sort for a total preorder is unique,
    so insertion from the right is the same function. *)
Section StableSort.
Context {A : Type} (le : A -> A -> bool).

Fixpoint insert_sorted (x : A) (l : list A) : list A :=
  match l with
  | [] => [x]
  | y :: r => if le x y then x :: y :: r else y :: insert_sorted x r
  end.

Definition stable_sort (l : list A) : list A := foldr insert_sorted [] l.
End StableSort.

(* ================================================================== *)
(** ** Playlists pane                                                  *)
(* ================================================================== *)

(** An entry of the history file.  [d.get("artist")] may find no key. *)
Record hist_entry : Type := mkHist {
  h_path : string;
  h_title : string;
  h_artist : option string;
  h_time : string
}.

(** [collections.Counter]: a dict from element to count, in the order in
    which elements were first seen. *)
Fixpoint counter_add (a : string) (c : list (string * Z)) : list (string * Z) :=
  match c with
  | [] => [(a, 1)]
  | (b, n) :: r =>
      if decide (a = b) then (b, n + 1) :: r else (b, n) :: counter_add a r
  end.

Definition Counter (l : list string) : list (string * Z) :=
  fold_left (fun c a => counter_add a c) l [].

(** [Counter.most_common(n)]: by decreasing count, equal counts in the
    order first encountered. *)
Definition most_common (n : nat) (c : list (string * Z)) : list (string * Z) :=
  take n (stable_sort (fun x y => (snd y <=? snd x)%Z) c).

(** [[d["artist"] for d in data if d.get("artist")]] *)
Definition history_artists (data : list hist_entry) : list string :=
  omap (fun d =>
          match h_artist d with
          | Some a => if decide (a = EmptyString) then None else Some a
          | None => None
          end) data.

(** The two fields that [_make_grouped] is called with. *)
Inductive group_field : Type :=
  | ByArtist
  | ByGenre.

Definition field_name (f : group_field) : string :=
  match f with ByArtist => "artist" | ByGenre => "genre" end.

(** [field.title()] *)
Definition field_title (f : group_field) : string :=
  match f with ByArtist => "Artist" | ByGenre => "Genre" end.

Definition field_value (f : group_field) (t : Track) : string :=
  match f with ByArtist => artist t | ByGenre => genre t end.

(** [getattr(t, field) or f'Unknown {field}'] *)
Definition group_key (f : group_field) (t : Track) : string :=
  if decide (field_value f t = EmptyString)
  then ("Unknown " ++ field_name f)%string
  else field_value f t.

(** [groups[key].append(t)] on a [defaultdict(list)], keys in the order
    of their first use. *)
Fixpoint group_append (key : string) (t : Track)
    (groups : list (string * list Track)) : list (string * list Track) :=
  match groups with
  | [] => [(key, [t])]
  | (k, ts) :: r =>
      if decide (key = k) then (k, ts ++ [t]) :: r
      else (k, ts) :: group_append key t r
  end.

Module PlaylistsPane.
(** [_pls] is a dict from playlist name to tracks (equality of dicts does
    not depend on the order of the keys); [list_widget] stands for
    [self.list], which gets one item per call of [add_playlist]. *)
Record t : Type := mk {
  _pls : gmap string (list Track);
  list_widget : list string
}.

Definition init : t := {| _pls := ∅; list_widget := [] |}.

Definition add_playlist (name : string) (tracks : list Track) (pp : t) : t :=
  {| _pls := <[name := tracks]> (_pls pp);
     list_widget := list_widget pp ++ [name] |}.

(** The tracks that [_make_recommended] collects from the history [data]
    and the library. *)
Definition recommended_tracks (data : list hist_entry)
    (library_tracks : list Track) : list Track :=
  let top_artists := most_common 3 (Counter (history_artists data)) in
  flat_map (fun '(artist_name, _) =>
              filter (fun t => artist t = artist_name) library_tracks)
           top_artists.

(** [_make_recommended]; [histfile] is the content of the history file,
    [None] when the file does not exist (a message box is shown and no
    playlist is added). *)
Definition _make_recommended (histfile : option (list hist_entry))
    (library_tracks : list Track) (pp : t) : t :=
  match histfile with
  | None => pp
  | Some data =>
      add_playlist "🔥 Recommended" (recommended_tracks data library_tracks) pp
  end.

(** [_save_current]; [queue] is the queue of the main window, [name] and
    [ok] are what the input dialog returns. *)
Definition _save_current (queue : list Track) (name : string) (ok : bool)
    (pp : t) : t :=
  match queue with
  | [] => pp
  | _ :: _ =>
      if ok && bool_decide (name <> EmptyString)
      then add_playlist name queue pp
      else pp
  end.

(** [_play]: the list that [playRequested] carries for an item. *)
Definition _play (name : string) (pp : t) : list Track :=
  default [] (_pls pp !! name).

Definition grouped (f : group_field) (library_tracks : list Track)
    : list (string * list Track) :=
  fold_left (fun groups t => group_append (group_key f t) t groups)
            library_tracks [].

Definition _make_grouped (f : group_field) (library_tracks : list Track)
    (pp : t) : t :=
  fold_left (fun pp '(name, tracks) =>
               add_playlist (field_title f ++ ": " ++ name)%string tracks pp)
            (grouped f library_tracks) pp.
End PlaylistsPane.

(* ================================================================== *)
(** ** Lyrics                                                          *)
(* ================================================================== *)

(** Texts are held as their UTF-8 encoding; the characters that the
    lyrics code looks for are given by code point and encoded here. *)
Section Utf8.
Local Open Scope string_scope.

Definition byte (n : Z) : ascii := ascii_of_nat (Z.to_nat n).

(** The UTF-8 encoding of a code point. *)
Definition utf8 (cp : Z) : string :=
  if (cp <? 128)%Z then String (byte cp) EmptyString
  else if (cp <? 2048)%Z then
    String (byte (192 + cp / 64)) (String (byte (128 + cp mod 64)) EmptyString)
  else if (cp <? 65536)%Z then
    String (byte (224 + cp / 4096))
      (String (byte (128 + cp / 64 mod 64))
         (String (byte (128 + cp mod 64)) EmptyString))
  else
    String (byte (240 + cp / 262144))
      (String (byte (128 + cp / 4096 mod 64))
         (String (byte (128 + cp / 64 mod 64))
            (String (byte (128 + cp mod 64)) EmptyString))).

(** The first text of [table] that [s] starts with. *)
Definition starts_with (table : list string) (s : string) : option string :=
  List.find (fun w => String.prefix w s) table.
End Utf8.

Section LrcText.
Local Open Scope string_scope.

(** The code points at which [str.splitlines] ends a line: LF, VT, FF,
    CR, FS, GS, RS, NEL, LS and PS. *)
Definition line_boundaries : list Z :=
  [10; 11; 12; 13; 28; 29; 30; 133; 8232; 8233]%Z.

(** The code points that [str.strip] removes: the characters for which
    [str.isspace] holds. *)
Definition whitespace : list Z :=
  [9; 10; 11; 12; 13; 28; 29; 30; 31; 32; 133; 160; 5760;
   8192; 8193; 8194; 8195; 8196; 8197; 8198; 8199; 8200; 8201; 8202;
   8232; 8233; 8239; 8287; 12288]%Z.

(** The number of bytes of the line boundary at the head of [s], 0 when
    there is none; CR LF counts as one boundary. *)
Definition boundary_len (s : string) : nat :=
  if String.prefix (utf8 13 ++ utf8 10) s then 2%nat
  else match starts_with (utf8 <$> line_boundaries) s with
       | Some w => String.length w
       | None => 0%nat
       end.

(** [text.splitlines()]; [skip] counts the bytes of the current line
    boundary that are still to be passed.  A boundary at the very end
    opens no further line. *)
Fixpoint splitlines_from (skip : nat) (s : string) : list string :=
  match s with
  | EmptyString => []
  | String c r =>
      match skip with
      | S k => splitlines_from k r
      | O =>
          match boundary_len s with
          | S n => EmptyString :: splitlines_from n r
          | O =>
              match splitlines_from 0 r with
              | [] => [String c EmptyString]
              | l :: ls => String c l :: ls
              end
          end
      end
  end.

Definition splitlines (s : string) : list string := splitlines_from 0 s.

(** The number of bytes of the whitespace character at the head of [s],
    0 when there is none. *)
Definition space_len (s : string) : nat :=
  match starts_with (utf8 <$> whitespace) s with
  | Some w => String.length w
  | None => 0%nat
  end.

(** [s.lstrip()]; [skip] counts the bytes of the current whitespace
    character that are still to be passed. *)
Fixpoint lstrip_from (skip : nat) (s : string) : string :=
  match s with
  | EmptyString => EmptyString
  | String _ r =>
      match skip with
      | S k => lstrip_from k r
      | O =>
          match space_len s with
          | S n => lstrip_from n r
          | O => s
          end
      end
  end.

Definition lstrip (s : string) : string := lstrip_from 0 s.

(** [s.rstrip()]: the text up to the point from which only whitespace
    follows. *)
Fixpoint rstrip (s : string) : string :=
  match s with
  | EmptyString => EmptyString
  | String c r =>
      match lstrip s with
      | EmptyString => EmptyString
      | _ => String c (rstrip r)
      end
  end.

Definition strip (s : string) : string := rstrip (lstrip s).

(** A match of [time_pat]: groups 1 to 3 and the length of the match. *)
Record time_match : Type := mkTimeMatch {
  group1 : string;
  group2 : string;
  group3 : option string;
  match_len : nat
}.

(** In a [str] pattern [\d] is any decimal digit of Unicode, and [int]
    reads them all.  The ASCII digits are written out; [digits] is the
    rest of that table (the characters of category Nd beyond ASCII in
    the Unicode database of the interpreter), each as its UTF-8 text
    with its value.

    [\d] at the head of [s]: the value and the text of the digit. *)
Definition digit_at (digits : list (string * Z)) (s : string)
    : option (Z * string) :=
  match s with
  | EmptyString => None
  | String c _ =>
      let n := nat_of_ascii c in
      if (n <? 128)%nat then
        if (48 <=? n)%nat && (n <=? 57)%nat
        then Some (Z.of_nat n - 48, String c EmptyString)
        else None
      else
        match List.find (fun e => String.prefix (fst e) s) digits with
        | Some (w, v) => Some (v, w)
        | None => None
        end
  end.

(** [\d{1,2}] at the head of [s]: the digits and what follows.  It is
    greedy; giving back the second digit cannot help any continuation of
    [time_pat], which wants [:], [.] or []] next, and no digit starts
    with one of these. *)
Definition digits_1_2 (digits : list (string * Z)) (s : string)
    : option (string * string) :=
  match digit_at digits s with
  | Some (_, d1) =>
      let r1 := sdrop (String.length d1) s in
      match digit_at digits r1 with
      | Some (_, d2) => Some (d1 ++ d2, sdrop (String.length d2) r1)
      | None => Some (d1, r1)
      end
  | None => None
  end.

(** [time_pat.match(s)]: the pattern
    [\[(\d{1,2}):(\d{1,2})(?:\.(\d{1,2}))?\]] anchored at the head of [s]. *)
Definition time_pat_match (digits : list (string * Z)) (s : string)
    : option time_match :=
  match s with
  | String "[" r0 =>
      match digits_1_2 digits r0 with
      | Some (g1, String ":" r1) =>
          match digits_1_2 digits r1 with
          | Some (g2, String "]" _) =>
              Some (mkTimeMatch g1 g2 None
                      (1 + String.length g1 + 1 + String.length g2 + 1))
          | Some (g2, String "." r2) =>
              match digits_1_2 digits r2 with
              | Some (g3, String "]" _) =>
                  Some (mkTimeMatch g1 g2 (Some g3)
                          (1 + String.length g1 + 1 + String.length g2
                           + 1 + String.length g3 + 1))
              | _ => None
              end
          | _ => None
          end
      | _ => None
      end
  | _ => None
  end.

(** [list(time_pat.finditer(raw))]: matches from left to right, the
    search resuming after each match.  [skip] counts the bytes of the
    current match that are still to be passed. *)
Fixpoint finditer_from (digits : list (string * Z)) (skip : nat)
    (raw : string) : list time_match :=
  match raw with
  | EmptyString => []
  | String _ r =>
      match skip with
      | S k => finditer_from digits k r
      | O =>
          match time_pat_match digits raw with
          | Some m => m :: finditer_from digits (match_len m - 1) r
          | None => finditer_from digits 0 r
          end
      end
  end.

Definition finditer (digits : list (string * Z)) (raw : string)
    : list time_match :=
  finditer_from digits 0 raw.

(** [time_pat.sub(empty, raw)]: the text with every match removed. *)
Fixpoint sub_empty_from (digits : list (string * Z)) (skip : nat)
    (raw : string) : string :=
  match raw with
  | EmptyString => EmptyString
  | String c r =>
      match skip with
      | S k => sub_empty_from digits k r
      | O =>
          match time_pat_match digits raw with
          | Some m => sub_empty_from digits (match_len m - 1) r
          | None => String c (sub_empty_from digits 0 r)
          end
      end
  end.

Definition sub_empty (digits : list (string * Z)) (raw : string) : string :=
  sub_empty_from digits 0 raw.

(** [int(g)] for a text of decimal digits, as a matched group is;
    [skip] counts the bytes of the current digit that are still to be
    passed. *)
Fixpoint int_from (digits : list (string * Z)) (skip : nat) (acc : Z)
    (g : string) : Z :=
  match g with
  | EmptyString => acc
  | String _ r =>
      match skip with
      | S k => int_from digits k acc r
      | O =>
          match digit_at digits g with
          | Some (v, d) =>
              int_from digits (String.length d - 1) (10 * acc + v) r
          | None => acc
          end
      end
  end.

Definition int_of_group (digits : list (string * Z)) (g : string) : Z :=
  int_from digits 0 0 g.

(** The [esc] of [_render] and [_highlight]. *)
Definition esc (s : string) : string :=
  replace ">" "&gt;" (replace "<" "&lt;" (replace "&" "&amp;" s)).

End LrcText.

(** A Python [float] is an IEEE 754 binary64 number, as a primitive
    float is.  [py_float] is [float(z)] for an integer from 0 to 2^53,
    and [Q_of_float] the rational number that a finite float is: its
    mantissa times 2 to its exponent. *)
Definition py_float (z : Z) : PrimFloat.float :=
  PrimFloat.of_uint63 (Uint63.of_Z z).

Definition Q_of_float (f : PrimFloat.float) : Q :=
  match FloatOps.Prim2SF f with
  | SpecFloat.S754_finite s m e =>
      let v := if (0 <=? e)%Z then inject_Z (Z.pos m * 2 ^ e)
               else Qmake (Z.pos m) (Z.to_pos (2 ^ (- e))) in
      if s then Qopp v else v
  | _ => 0%Q
  end.

Module LRC.
(** [mm*60+ss+cs/100.0]: the integer sum becomes a float, the division
    and the addition are those of floats. *)
Definition seconds (mm ss cs : Z) : Q :=
  Q_of_float (PrimFloat.add (py_float (mm * 60 + ss))
                (PrimFloat.div (py_float cs) (py_float 100))).

(** The timestamp of one match. *)
Definition timestamp (digits : list (string * Z)) (m : time_match) : Q :=
  let mm := int_of_group digits (group1 m) in
  let ss := int_of_group digits (group2 m) in
  let cs := match group3 m with
            | Some g => int_of_group digits g
            | None => 0
            end in
  seconds mm ss cs.

(** The entries that one line appends to [out]. *)
Definition line_entries (digits : list (string * Z)) (raw : string)
    : list (Q * string) :=
  let times := finditer digits raw in
  let line := strip (sub_empty digits raw) in
  map (fun m => (timestamp digits m, line)) times.

Definition parse (digits : list (string * Z)) (text : string)
    : list (Q * string) :=
  let out := flat_map (line_entries digits) (splitlines text) in
  stable_sort (fun x y => Qle_bool (fst x) (fst y)) out.
End LRC.

Module LyricsPanel.
Record t : Type := mk {
  lines : list (Q * string);
  idx : Z;
  _current_track : option Track;
  highlighted : option Z   (* the line the browser shows highlighted *)
}.

Definition init : t :=
  {| lines := []; idx := -1; _current_track := None; highlighted := None |}.

(** [load_for], given the text of the sidecar [.lrc] file when it exists
    and reads, and the decimal digits beyond ASCII for the parser.
    Without the file the panel stays empty while a worker thread searches
    online. *)
Definition load_for (digits : list (string * Z))
    (sidecar : string -> option string) (track : Track) (lp : t) : t :=
  let lrc := (splitext_root (path track) ++ ".lrc")%string in
  {| lines := match sidecar lrc with
              | Some text => LRC.parse digits text
              | None => []
              end;
     idx := -1;
     _current_track := Some track;
     highlighted := None |}.

(** [i+1 < len(self.lines) and self.lines[i+1][0] <= sec] *)
Definition forward_cond (ls : list (Q * string)) (sec : Q) (i : Z) : result bool :=
  if i + 1 <? len ls
  then e ← py_index ls (i + 1); Ok (Qle_bool (fst e) sec)
  else Ok false.

(** [i > 0 and self.lines[i][0] > sec] *)
Definition backward_cond (ls : list (Q * string)) (sec : Q) (i : Z) : result bool :=
  if 0 <? i
  then e ← py_index ls i; Ok (Qgt_bool (fst e) sec)
  else Ok false.

(** [_tick]; [cb] is what the playback callback answers, [None] when no
    callback is registered. *)
Definition _tick (fuel : nat) (cb : option Q) (lp : t) : option (result t) :=
  match lines lp, cb with
  | [], _ | _, None => Some (Ok lp)
  | _ :: _, Some sec =>
      match while_loop fuel (forward_cond (lines lp) sec)
                       (fun i => Ok (i + 1)) (idx lp) with
      | None => None
      | Some (Raise e) => Some (Raise e)
      | Some (Ok i1) =>
          match while_loop fuel (backward_cond (lines lp) sec)
                           (fun i => Ok (i - 1)) i1 with
          | None => None
          | Some (Raise e) => Some (Raise e)
          | Some (Ok i) =>
              if negb (i =? idx lp) && (0 <=? i) && (i <? len (lines lp))
              then Some (Ok {| lines := lines lp; idx := i;
                               _current_track := _current_track lp;
                               highlighted := Some i |})
              else Some (Ok lp)
          end
      end
  end.
End LyricsPanel.

(* ================================================================== *)
(** ** MainWindow                                                      *)
(* ================================================================== *)

(** A row of the queue table: the [Track] stored in column 0 ([None]
    when the row has no item there, or the item carries no data) and the
    texts of the four columns. *)
Record queue_row : Type := mkQueueRow {
  q_track : option Track;
  q_num : string;
  q_title : string;
  q_artist : string;
  q_duration : string
}.

(** The persisted state file: a JSON object whose keys may be missing. *)
Record state_file : Type := mkStateFile {
  f_folders : option (list string);
  f_playlists : option (list (string * list track_dict));
  f_queue : option (list track_dict);
  f_play_index : option Z
}.

(** What the window takes from outside the program: the files, the
    clock, and the table of decimal digits of the interpreter. *)
Record Env : Type := mkEnv {
  sidecar : string -> option string;      (* text of an .lrc file *)
  walk_mp3 : list string -> list string;  (* .mp3 paths under folders *)
  now : string;                           (* datetime.now().isoformat() *)
  decimal_digits : list (string * Z)      (* digits beyond ASCII, UTF-8 *)
}.

Module MainWindow.
Record t : Type := mk {
  player : Player.t;
  library : LibraryPane.t;
  playlists : PlaylistsPane.t;
  lyrics : LyricsPanel.t;
  queue_table : list queue_row;
  _queue : list Track;
  _play_index : Z;
  playBtn : string;
  now_label : string;
  history : list hist_entry   (* content of the history log file *)
}.

(** [__init__] before [_load_state]; [folders] are the music folders
    found at start. *)
Definition init (env : Env) (folders : list string) : t :=
  {| player := Player.init;
     library := LibraryPane.load (walk_mp3 env folders)
                  (LibraryPane.mk folders [] []);
     playlists := PlaylistsPane.init;
     lyrics := LyricsPanel.init;
     queue_table := [];
     _queue := []; _play_index := 0;
     playBtn := "▶"; now_label := "—";
     history := [] |}.

Definition set_player (p : Player.t) (w : t) : t :=
  mk p (library w) (playlists w) (lyrics w) (queue_table w) (_queue w)
     (_play_index w) (playBtn w) (now_label w) (history w).

Definition set_queue (q : list Track) (i : Z) (w : t) : t :=
  mk (player w) (library w) (playlists w) (lyrics w) (queue_table w) q i
     (playBtn w) (now_label w) (history w).

Definition sync_rows (q : list Track) : list queue_row :=
  imap (fun i t =>
          {| q_track := Some t; q_num := str_Z (Z.of_nat i + 1);
             q_title := title t; q_artist := artist t;
             q_duration := format_duration (duration t) |}) q.

Definition _sync_queue_table (w : t) : t :=
  mk (player w) (library w) (playlists w) (lyrics w) (sync_rows (_queue w))
     (_queue w) (_play_index w) (playBtn w) (now_label w) (history w).

Definition _rebuild_queue_from_table (w : t) : t :=
  let newq := omap q_track (queue_table w) in
  match newq with
  | [] => w
  | _ :: _ => set_queue newq (Z.min (_play_index w) (len newq - 1)) w
  end.

Definition _log_play (env : Env) (t0 : Track) (w : t) : t :=
  let entry := {| h_path := path t0; h_title := title t0;
                  h_artist := Some (artist t0); h_time := now env |} in
  mk (player w) (library w) (playlists w) (lyrics w) (queue_table w)
     (_queue w) (_play_index w) (playBtn w) (now_label w)
     (history w ++ [entry]).

Definition _play_current (env : Env) (w : t) : result t :=
  match _queue w with
  | [] => Ok w
  | _ :: _ =>
      t0 ← py_index (_queue w) (_play_index w);
      let p := Player.play (Player.load (path t0) (player w)) in
      let w1 :=
        mk p (library w) (playlists w) (lyrics w) (queue_table w) (_queue w)
           (_play_index w) "⏸"
           ("Now: " ++ title t0 ++ " — " ++ artist t0)%string (history w) in
      let w2 := _sync_queue_table w1 in
      let w3 :=
        mk (player w2) (library w2) (playlists w2)
           (LyricsPanel.load_for (decimal_digits env) (sidecar env) t0
              (lyrics w2))
           (queue_table w2) (_queue w2) (_play_index w2) (playBtn w2)
           (now_label w2) (history w2) in
      Ok (_log_play env t0 w3)
  end.

Definition play_track (env : Env) (t0 : Track) (w : t) : result t :=
  let allt := LibraryPane.tracks (library w) in
  let q :=
    match next_index (fun x => bool_decide (path x = path t0)) allt 0 with
    | Ok i => drop i allt ++ take i allt
    | Raise _ => [t0]
    end in
  w1 ← _play_current env (set_queue q 0 w);
  Ok (_sync_queue_table w1).

Definition play_playlist (env : Env) (tracks : list Track) (w : t) : result t :=
  match tracks with
  | [] => Ok w
  | _ :: _ =>
      w1 ← _play_current env (set_queue tracks 0 w);
      Ok (_sync_queue_table w1)
  end.

Definition _play_from_queue (env : Env) (row : Z) (w : t) : result t :=
  if (0 <=? row) && (row <? len (_queue w))
  then _play_current env (set_queue (_queue w) row w)
  else Ok w.

Definition prev_track (env : Env) (w : t) : result t :=
  match _queue w with
  | [] => Ok w
  | _ :: _ =>
      if Qgt_bool (Player.get_position_seconds (player w)) 3
      then Ok (set_player (Player.seek_seconds 0 (player w)) w)
      else _play_current env
             (set_queue (_queue w) (Z.max 0 (_play_index w - 1)) w)
  end.

Definition next_track (env : Env) (w : t) : result t :=
  match _queue w with
  | [] => Ok w
  | _ :: _ =>
      _play_current env
        (set_queue (_queue w) (Z.min (len (_queue w) - 1) (_play_index w + 1)) w)
  end.

Definition _on_track_end (env : Env) (w : t) : result t := next_track env w.

(** The engine reports the end of the track: [Player._on_end] runs, and
    each [trackFinished] it emits reaches [_on_track_end]. *)
Definition on_engine_end (env : Env) (w : t) : result t :=
  let '(p, signals) := Player._on_end (player w) in
  foldl (fun r s =>
           match s with
           | trackFinished => w' ← r; _on_track_end env w'
           end)
        (Ok (set_player p w)) signals.

(** [_load_state]; [file] is the parsed state file, [None] when it does
    not exist. *)
Definition _load_state (env : Env) (file : option state_file) (w : t) : t :=
  match file with
  | None => w
  | Some data =>
      let folders := default [] (f_folders data) in
      let lib :=
        match folders with
        | [] => library w
        | _ :: _ =>
            LibraryPane.load (walk_mp3 env folders)
              (LibraryPane.mk folders (LibraryPane.table (library w))
                 (LibraryPane._tracks (library w)))
        end in
      let pls := default [] (f_playlists data) in
      let pp :=
        foldl (fun pp '(name, arr) =>
                 PlaylistsPane.add_playlist name (map from_dict arr) pp)
              (playlists w) pls in
      let w1 :=
        mk (player w) lib pp (lyrics w) (queue_table w) (_queue w)
           (_play_index w) (playBtn w) (now_label w) (history w) in
      match default [] (f_queue data) with
      | [] => w1
      | q =>
          let tracks := map from_dict q in
          _sync_queue_table
            (set_queue tracks
               (Z.min (default 0 (f_play_index data)) (len tracks - 1)) w1)
      end
  end.

Definition _save_state (w : t) : state_file :=
  {| f_folders := Some (LibraryPane.folders (library w));
     f_playlists :=
       Some (map_to_list (map to_dict <$> PlaylistsPane._pls (playlists w)));
     f_queue := Some (map to_dict (_queue w));
     f_play_index := Some (_play_index w) |}.
End MainWindow.

(** What reaches the window from the widgets and the engine: the signal
    connections of [__init__] and [_build_player_bar].  [DropRows] is a
    drag and drop in the queue table: Qt leaves the rows in the table,
    then [orderChanged] runs [_rebuild_queue_from_table].
    [EngineClock] is the engine moving its clock. *)
Inductive ui_event : Type :=
  | TrackClicked (t : Track)
  | PlaylistActivated (name : string)
  | QueueRowClicked (row : Z)
  | PrevPressed
  | NextPressed
  | DropRows (rows : list queue_row)
  | EngineEnd
  | EngineClock (ms : Z).

Definition handle (env : Env) (ev : ui_event) (w : MainWindow.t)
    : result MainWindow.t :=
  match ev with
  | TrackClicked t => MainWindow.play_track env t w
  | PlaylistActivated name =>
      MainWindow.play_playlist env
        (PlaylistsPane._play name (MainWindow.playlists w)) w
  | QueueRowClicked row => MainWindow._play_from_queue env row w
  | PrevPressed => MainWindow.prev_track env w
  | NextPressed => MainWindow.next_track env w
  | DropRows rows =>
      Ok (MainWindow._rebuild_queue_from_table
            (MainWindow.mk (MainWindow.player w) (MainWindow.library w)
               (MainWindow.playlists w) (MainWindow.lyrics w) rows
               (MainWindow._queue w) (MainWindow._play_index w)
               (MainWindow.playBtn w) (MainWindow.now_label w)
               (MainWindow.history w)))
  | EngineEnd => MainWindow.on_engine_end env w
  | EngineClock ms =>
      Ok (MainWindow.set_player
            (Player.with_mp
               (fun m => mkMediaPlayer (mp_media m) (mp_playing m) ms
                           (mp_length m) (mp_calls m))
               (MainWindow.player w)) w)
  end.

(** A run of events from a window, stopping at the first exception. *)
Fixpoint run_events (env : Env) (evs : list ui_event) (w : MainWindow.t)
    : result MainWindow.t :=
  match evs with
  | [] => Ok w
  | ev :: rest => w' ← handle env ev w; run_events env rest w'
  end.

(* ================================================================== *)
(** ** Specification-side notions                                      *)
(* ================================================================== *)

(** *** Queue and playback *)

(** The queue invariant of the data model: the index points into the
    queue. *)
Definition valid_index (w : MainWindow.t) : Prop :=
  0 <= MainWindow._play_index w < len (MainWindow._queue w).

(** The same for a queue that may be empty: index 0 on the empty queue,
    an index in range otherwise. *)
Definition queue_invariant (w : MainWindow.t) : Prop :=
  match MainWindow._queue w with
  | [] => MainWindow._play_index w = 0
  | _ :: _ => valid_index w
  end.

(** The spec's [advance(direction)]: one step, clamped to the queue. *)
Definition advance_spec (direction : Z) (n i : Z) : Z :=
  Z.max 0 (Z.min (n - 1) (i + direction)).

(** [n] presses of the next button. *)
Fixpoint next_times (env : Env) (n : nat) (w : MainWindow.t)
    : result MainWindow.t :=
  match n with
  | O => Ok w
  | S k => w' ← MainWindow.next_track env w; next_times env k w'
  end.

(** The spec's end-of-track transition, as the claim words it. *)
Definition end_of_track_spec (w w' : MainWindow.t) : Prop :=
  let p := MainWindow.player w in
  let p' := MainWindow.player w' in
  let i := MainWindow._play_index w in
  if Player._repeat p then
    (* seek to 0 and resume the same track *)
    MainWindow._play_index w' = i
    /\ mp_media (Player._mp p') = mp_media (Player._mp p)
    /\ mp_time (Player._mp p') = 0
    /\ Player.is_playing p' = true
  else if i + 1 <? len (MainWindow._queue w) then
    (* advance by one, load and play the new current track *)
    MainWindow._play_index w' = i + 1
    /\ mp_media (Player._mp p')
       = path <$> (MainWindow._queue w !! Z.to_nat (i + 1))
    /\ Player.is_playing p' = true
  else
    (* no next track: loaded-paused at the last position, nothing played *)
    MainWindow._play_index w' = i
    /\ Player.is_playing p' = false
    /\ mp_calls (Player._mp p') = mp_calls (Player._mp p).

(** *** Metadata *)

(** The spec's fallback answer of the metadata reader. *)
Definition metadata_fallback (path : string)
    : string * string * string * string * Q :=
  (file_stem path, EmptyString, EmptyString, EmptyString, 0%Q).

(** A tag of the file has an empty list of values, so that taking its
    first value raises. *)
Definition tag_value_missing (eid : gmap string (list string)) (path : string)
    : bool :=
  raises (eid_first eid "title" [file_stem path])
  || raises (eid_first eid "artist" ["Unknown Artist"%string])
  || raises (eid_first eid "album" [EmptyString])
  || raises (eid_first eid "genre" [EmptyString]).

(** Some step of parsing the file fails: the audio, the tag header, or
    the first value of one of the four tags. *)
Definition parse_failure (mu : Mutagen) (path : string) : bool :=
  match MP3_length mu path, EasyID3 mu path with
  | Raise _, _ => true
  | Ok _, Raise _ => true
  | Ok _, Ok eid => tag_value_missing eid path
  end.

(** The spec's stale-update rule: a late result whose target path is no
    longer in the catalog changes nothing. *)
Definition late_result_dropped (target : string) (u : row_update)
    (lib : LibraryPane.t) : Prop :=
  target ∉ path <$> LibraryPane.tracks lib ->
  LibraryPane._update_row u lib = Ok lib.

(** *** Recommender *)

(** How often [a] occurs in [l]. *)
Definition count_of (a : string) (l : list string) : Z :=
  len (filter (fun b => b = a) l).

(** The distinct elements of [l] in the order of their first occurrence. *)
Fixpoint first_seen (l : list string) : list string :=
  match l with
  | [] => []
  | a :: r => a :: filter (fun b => b <> a) (first_seen r)
  end.

(** Every artist of the history with its number of plays, in first-seen
    order: what the spec ranks. *)
Definition artist_frequencies (data : list hist_entry) : list (string * Z) :=
  let arts := history_artists data in
  map (fun a => (a, count_of a arts)) (first_seen arts).

(** The spec's recommendation: the catalog tracks of the top artists, in
    catalog order. *)
Definition recommend_spec (top : list string) (catalog : list Track)
    : list Track :=
  filter (fun t => artist t ∈ top) catalog.

(** *** Lyrics *)

(** The spec's active line: the index of the last entry whose timestamp
    is at most the position, -1 when there is none. *)
Fixpoint last_le_from (sec : Q) (ls : list (Q * string)) (i best : Z) : Z :=
  match ls with
  | [] => best
  | e :: r => last_le_from sec r (i + 1) (if Qle_bool (fst e) sec then i else best)
  end.

Definition active_line (ls : list (Q * string)) (sec : Q) : Z :=
  last_le_from sec ls 0 (-1).

Definition sorted_lyrics (ls : list (Q * string)) : Prop :=
  StronglySorted (fun x y => (fst x <= fst y)%Q) ls.

(** [k] splits the entries: up to index [k] the timestamps are at most
    [sec], beyond it they are larger. *)
Definition splits_at (ls : list (Q * string)) (sec : Q) (k : Z) : Prop :=
  -1 <= k < len ls
  /\ forall (j : nat) e, ls !! j = Some e ->
       (Z.of_nat j <= k -> Qle_bool (fst e) sec = true)
       /\ (k < Z.of_nat j -> Qle_bool (fst e) sec = false).

(** The index that one tick leaves, as a function of the old index and
    the active line [k]. *)
Definition tick_index (old k : Z) : Z :=
  if k =? -1 then (if old =? -1 then -1 else 0) else k.

(** *** Timed lyrics *)

(** No text of the table starts with another one, as holds for the
    encodings of distinct characters. *)
Definition prefix_free (table : list string) : Prop :=
  Forall (fun w1 =>
            Forall (fun w2 => String.prefix w1 w2 = true -> w1 = w2) table)
         table.

(** Some text of [table] occurs in [l]. *)
Definition occurs_in (table : list string) (l : string) : Prop :=
  exists a e b, l = (a ++ e ++ b)%string /\ e ∈ table.

(** A line boundary: one of the boundary characters, or CR LF. *)
Definition is_boundary (e : string) : Prop :=
  e = (utf8 13 ++ utf8 10)%string \/ e ∈ utf8 <$> line_boundaries.

Definition break_free (l : string) : Prop :=
  ~ occurs_in (utf8 <$> line_boundaries) l.

(** The lines of a text: the runs without a boundary character, each
    but possibly the last one ended by a boundary; a CR that a LF
    follows is never a boundary on its own, and a text that ends with a
    boundary has no empty last line. *)
Inductive lines_of : string -> list string -> Prop :=
  | lines_nil : lines_of EmptyString []
  | lines_last (l : string) :
      l <> EmptyString -> break_free l -> lines_of l [l]
  | lines_cons (l e rest : string) (ls : list string) :
      break_free l -> is_boundary e ->
      (e = utf8 13 -> String.prefix (utf8 10) rest = false) ->
      lines_of rest ls ->
      lines_of (l ++ e ++ rest) (l :: ls).

(** A run of whitespace characters. *)
Inductive blank : string -> Prop :=
  | blank_nil : blank EmptyString
  | blank_cons (w s : string) :
      w ∈ utf8 <$> whitespace -> blank s -> blank (w ++ s).

Definition starts_blank (s : string) : Prop :=
  exists w r, w ∈ utf8 <$> whitespace /\ s = (w ++ r)%string.

Definition ends_blank (s : string) : Prop :=
  exists a w, w ∈ utf8 <$> whitespace /\ s = (a ++ w)%string.

(** [line] is [body] without the whitespace at its two ends. *)
Definition stripped_of (body line : string) : Prop :=
  exists a b, body = (a ++ line ++ b)%string /\ blank a /\ blank b
    /\ ~ starts_blank line /\ ~ ends_blank line.

Definition first_byte (s : string) : nat :=
  match s with
  | String c _ => nat_of_ascii c
  | EmptyString => 0%nat
  end.

(** What a table of the decimal digits beyond ASCII satisfies: every
    text starts with a byte beyond ASCII, as the UTF-8 text of such a
    character does, the values are digits, and no text starts with the
    text of another entry. *)
Definition wf_digits (digits : list (string * Z)) : Prop :=
  Forall (fun e => (128 <= first_byte (fst e))%nat /\ 0 <= snd e <= 9) digits
  /\ Forall (fun e1 =>
               Forall (fun e2 =>
                         String.prefix (fst e1) (fst e2) = true -> e1 = e2)
                      digits) digits.

(** A decimal digit: its text and its value. *)
Inductive digit_text (digits : list (string * Z)) : string -> Z -> Prop :=
  | digit_ascii (v : Z) :
      0 <= v <= 9 -> digit_text digits (String (byte (48 + v)) EmptyString) v
  | digit_wide (d : string) (v : Z) :
      (d, v) ∈ digits -> digit_text digits d v.

(** One or two digits and the number they write. *)
Inductive digit_group (digits : list (string * Z)) : string -> Z -> Prop :=
  | group_one (d : string) (v : Z) :
      digit_text digits d v -> digit_group digits d v
  | group_two (d1 d2 : string) (v1 v2 : Z) :
      digit_text digits d1 v1 -> digit_text digits d2 v2 ->
      digit_group digits (d1 ++ d2) (10 * v1 + v2).

(** A timestamp tag [[mm:ss]] or [[mm:ss.cc]]: its text and its three
    numbers, the last one 0 when the tag has no fraction. *)
Inductive lrc_tag (digits : list (string * Z))
    : string -> Z -> Z -> Z -> Prop :=
  | tag_mm_ss (g1 g2 : string) (mm ss : Z) :
      digit_group digits g1 mm -> digit_group digits g2 ss ->
      lrc_tag digits ("[" ++ g1 ++ ":" ++ g2 ++ "]") mm ss 0
  | tag_mm_ss_cc (g1 g2 g3 : string) (mm ss cs : Z) :
      digit_group digits g1 mm -> digit_group digits g2 ss ->
      digit_group digits g3 cs ->
      lrc_tag digits ("[" ++ g1 ++ ":" ++ g2 ++ "." ++ g3 ++ "]") mm ss cs.

Definition starts_with_tag (digits : list (string * Z)) (s : string) : Prop :=
  exists text rest mm ss cs,
    lrc_tag digits text mm ss cs /\ s = (text ++ rest)%string.

(** Reading a line from the left: where a tag starts, the tag is taken
    and the reading goes on behind it; elsewhere the character belongs
    to the text of the line.  The answer is the numbers of the tags in
    order and the text that is left. *)
Inductive scan (digits : list (string * Z))
    : string -> list (Z * Z * Z) -> string -> Prop :=
  | scan_end : scan digits EmptyString [] EmptyString
  | scan_tag (text rest : string) (mm ss cs : Z) (tags : list (Z * Z * Z))
        (body : string) :
      lrc_tag digits text mm ss cs -> scan digits rest tags body ->
      scan digits (text ++ rest) ((mm, ss, cs) :: tags) body
  | scan_char (c : ascii) (rest : string) (tags : list (Z * Z * Z))
        (body : string) :
      ~ starts_with_tag digits (String c rest) -> scan digits rest tags body ->
      scan digits (String c rest) tags (String c body).

(** The three numbers of a match. *)
Definition tag_numbers (digits : list (string * Z)) (m : time_match)
    : Z * Z * Z :=
  (int_of_group digits (group1 m), int_of_group digits (group2 m),
   match group3 m with
   | Some g => int_of_group digits g
   | None => 0
   end).

(** The number of seconds that a tag writes. *)
Definition exact_seconds (mm ss cs : Z) : Q :=
  inject_Z (mm * 60 + ss) + inject_Z cs / 100.

(** Whether the float [b + cs/100.0] is within 2^-40 of the number
    b + cs/100, decided on its mantissa and exponent. *)
Definition seconds_close (b cs : Z) : bool :=
  match FloatOps.Prim2SF (PrimFloat.add (py_float b)
                            (PrimFloat.div (py_float cs) (py_float 100))) with
  | SpecFloat.S754_finite false m e =>
      (e <=? 0) && (-60 <=? e)
      && (Z.abs (Z.shiftl (100 * Z.pos m) (60 + e)
                 - Z.shiftl (100 * b + cs) 60)
          <=? 104857600)
  | SpecFloat.S754_zero _ => (b =? 0) && (cs =? 0)
  | _ => false
  end.

(** Whether the float [b + 0/100.0] is the number b. *)
Definition seconds_whole (b : Z) : bool :=
  match FloatOps.Prim2SF (PrimFloat.add (py_float b)
                            (PrimFloat.div (py_float 0) (py_float 100))) with
  | SpecFloat.S754_finite false m e =>
      (e <=? 0) && (Z.pos m =? Z.shiftl b (- e))
  | SpecFloat.S754_zero _ => b =? 0
  | _ => false
  end.

(** [p] holds for every number from 0 up to [n], [n] left out. *)
Fixpoint all_below (n : nat) (p : Z -> bool) : bool :=
  match n with
  | O => true
  | S k => p (Z.of_nat k) && all_below k p
  end.

(** The numbers of a tag have one or two digits. *)
Definition tag_in_range (t : Z * Z * Z) : Prop :=
  let '(mm, ss, cs) := t in
  0 <= mm <= 99 /\ 0 <= ss <= 99 /\ 0 <= cs <= 99.

(** The entries that a line with the given tags and text stands for:
    one per tag, at [mm*60+ss+cs/100.0] seconds. *)
Definition tag_entries (tags : list (Z * Z * Z)) (line : string)
    : list (Q * string) :=
  map (fun '(mm, ss, cs) => (LRC.seconds mm ss cs, line)) tags.

(** *** Persisted state *)

(** The spec's empty defaults of the persisted state. *)
Definition empty_defaults (w : MainWindow.t) : Prop :=
  LibraryPane.folders (MainWindow.library w) = []
  /\ PlaylistsPane._pls (MainWindow.playlists w) = ∅
  /\ MainWindow._queue w = []
  /\ MainWindow._play_index w = 0.

(** *** Library, playlists and lyrics panel: invariants *)

(** The path column of the table and the paths of the tracks agree, row
    by row. *)
Definition aligned (lib : LibraryPane.t) : Prop :=
  map c_path (LibraryPane.table lib) = map path (LibraryPane._tracks lib).

(** The items of the playlist list name exactly the stored playlists. *)
Definition listed (pp : PlaylistsPane.t) : Prop :=
  forall name : string,
    name ∈ PlaylistsPane.list_widget pp
    <-> is_Some (PlaylistsPane._pls pp !! name).

(** The lines are sorted and the index is -1 or points at a line. *)
Definition panel_ok (lp : LyricsPanel.t) : Prop :=
  sorted_lyrics (LyricsPanel.lines lp)
  /\ -1 <= LyricsPanel.idx lp < len (LyricsPanel.lines lp).

(** The history entry that playing [t] at time [now] appends. *)
Definition history_entry_of (env : Env) (t : Track) : hist_entry :=
  {| h_path := path t; h_title := title t; h_artist := Some (artist t);
     h_time := now env |}.

(** No character of [s] is [c]. *)
Fixpoint free_of (c : ascii) (s : string) : bool :=
  match s with
  | EmptyString => true
  | String a r => negb (Ascii.eqb a c) && free_of c r
  end.

(* ================================================================== *)
(** ** Example data                                                    *)
(* ================================================================== *)

Definition demo_env : Env :=
  {| sidecar := fun _ => None; walk_mp3 := fun _ => [];
     now := "2025-01-01T00:00:00"; decimal_digits := [] |}.

Definition song_a : Track :=
  mkTrack "/m/a.mp3" "a" "Unknown Artist" EmptyString EmptyString 0.
Definition song_b : Track :=
  mkTrack "/m/b.mp3" "b" "Unknown Artist" EmptyString EmptyString 0.
Definition song_c : Track :=
  mkTrack "/m/c.mp3" "c" "Unknown Artist" EmptyString EmptyString 0.

(** A window whose library and queue hold the given tracks, the engine
    playing the track at index [i] at [ms] milliseconds. *)
Definition demo_window (q : list Track) (i ms : Z) (repeat : bool) : MainWindow.t :=
  {| MainWindow.player :=
       {| Player._mp :=
            {| mp_media := path <$> (q !! Z.to_nat i); mp_playing := true;
               mp_time := ms; mp_length := 200000; mp_calls := [] |};
          Player._repeat := repeat |};
     MainWindow.library := LibraryPane.mk ["/m"%string] [] q;
     MainWindow.playlists := PlaylistsPane.init;
     MainWindow.lyrics := LyricsPanel.init;
     MainWindow.queue_table := MainWindow.sync_rows q;
     MainWindow._queue := q;
     MainWindow._play_index := i;
     MainWindow.playBtn := "⏸";
     MainWindow.now_label := "—";
     MainWindow.history := [] |}.

Definition two_songs_at_last : MainWindow.t :=
  demo_window [song_a; song_b] 1 200000 false.

Definition two_songs_five_seconds_in : MainWindow.t :=
  demo_window [song_a; song_b] 1 5000 false.

Definition three_songs : MainWindow.t :=
  demo_window [song_a; song_b; song_c] 0 0 false.

(** Two music folders, the second inside the first: walking both finds
    the file of the inner folder twice, and [load] lists it twice. *)
Definition nested_folders_env : Env :=
  {| sidecar := fun _ => None;
     walk_mp3 := fun folders =>
       flat_map (fun f =>
                   if String.eqb f "/m"
                   then ["/m/a.mp3"; "/m/live/b.mp3"]%string
                   else if String.eqb f "/m/live"
                        then ["/m/live/b.mp3"%string]
                        else []) folders;
     now := "2025-01-01T00:00:00"; decimal_digits := [] |}.

Definition nested_folders_window : MainWindow.t :=
  MainWindow.init nested_folders_env ["/m"; "/m/live"]%string.

Definition live_b : Track :=
  mkTrack "/m/live/b.mp3" "b" "Unknown Artist" EmptyString EmptyString 0.

(** The queue table as a drop leaves it. *)
Definition with_table (rows : list queue_row) (w : MainWindow.t) : MainWindow.t :=
  MainWindow.mk (MainWindow.player w) (MainWindow.library w)
    (MainWindow.playlists w) (MainWindow.lyrics w) rows
    (MainWindow._queue w) (MainWindow._play_index w) (MainWindow.playBtn w)
    (MainWindow.now_label w) (MainWindow.history w).

Definition empty_row : queue_row :=
  mkQueueRow None EmptyString EmptyString EmptyString EmptyString.

Definition row_of (t : Track) : queue_row :=
  mkQueueRow (Some t) "1" (title t) (artist t) "0:00".

(** An MP3 file of 200 seconds without an ID3 header. *)
Definition untagged_mp3 : Mutagen :=
  {| MP3_length := fun _ => Ok 200%Q; EasyID3 := fun _ => Raise MutagenError |}.

(** A file that is not MP3 audio at all. *)
Definition not_audio : Mutagen :=
  {| MP3_length := fun _ => Raise MutagenError;
     EasyID3 := fun _ => Raise MutagenError |}.

(** A tagged file whose genre frame holds no value: the title, artist and
    album are read before [eid.get('genre', [''])[0]] raises. *)
Definition empty_genre_list : Mutagen :=
  {| MP3_length := fun _ => Ok 200%Q;
     EasyID3 := fun _ =>
       Ok (list_to_map [("title"%string, ["Song A"%string]);
                        ("artist"%string, ["Artist A"%string]);
                        ("album"%string, ["Album A"%string]);
                        ("genre"%string, [])]) |}.

(** A folder with two tagged songs, and the same folder after the first
    file has been deleted and the library rescanned. *)
Definition tagged_songs : Mutagen :=
  {| MP3_length := fun _ => Ok (187.4)%Q;
     EasyID3 := fun p =>
       if String.eqb p "/m/a.mp3"
       then Ok (list_to_map [("title"%string, ["Song A (Lyrics)"%string]);
                             ("artist"%string, ["Artist A"%string])])
       else Ok (list_to_map [("title"%string, ["Song B"%string]);
                             ("artist"%string, ["Artist B"%string])]) |}.

Definition library_ab : LibraryPane.t :=
  LibraryPane.load ["/m/a.mp3"; "/m/b.mp3"]%string
    (LibraryPane.mk ["/m"%string] [] []).

Definition library_b_after_rescan : LibraryPane.t :=
  LibraryPane.load ["/m/b.mp3"%string] library_ab.

(** What the worker queues for row 0 of [library_ab]. *)
Definition late_update_for_a : row_update :=
  {| u_row := 0; u_title := "Song A "; u_artist := "Artist A";
     u_album := EmptyString; u_genre := EmptyString; u_dur_str := "3:07" |}.

Definition played (a : string) : hist_entry :=
  mkHist "/m/x.mp3" "x" (Some a) "2025-01-01T00:00:00".

Definition by_artist (p a : string) : Track :=
  mkTrack p p a EmptyString EmptyString 0.

(** A history that ranks A before B, and a catalog that lists a track
    of B before a track of A. *)
Definition history_aab : list hist_entry := [played "A"; played "A"; played "B"].

Definition catalog_b_then_a : list Track :=
  [by_artist "/m/1.mp3" "B"; by_artist "/m/2.mp3" "A"].

Definition history_without_artist : list hist_entry :=
  [mkHist "/m/x.mp3" "x" None "2025-01-01T00:00:00";
   mkHist "/m/y.mp3" "y" (Some EmptyString) "2025-01-01T00:03:00"].

(** A panel whose second line is highlighted. *)
Definition two_lines_second_active : LyricsPanel.t :=
  {| LyricsPanel.lines := [(5%Q, "a"%string); (10%Q, "b"%string)];
     LyricsPanel.idx := 1;
     LyricsPanel._current_track := Some song_a;
     LyricsPanel.highlighted := Some 1 |}.

(** A start of the program on a machine where [~/Music] exists. *)
Definition start_with_music_folder : MainWindow.t :=
  MainWindow.init demo_env ["/home/u/Music"%string].

(** A window that had no folders but a saved playlist and queue. *)
Definition window_without_folders : MainWindow.t :=
  MainWindow.mk Player.init (LibraryPane.mk [] [] [])
    (PlaylistsPane.add_playlist "mix" [song_b; song_a] PlaylistsPane.init)
    LyricsPanel.init (MainWindow.sync_rows [song_a; song_b])
    [song_a; song_b] 1 "▶" "—" [].

(** The Arabic-Indic digits U+0660 to U+0669, ten of the decimal digits
    beyond ASCII. *)
Definition arabic_indic_digits : list (string * Z) :=
  map (fun v => (utf8 (1632 + v), v)) [0; 1; 2; 3; 4; 5; 6; 7; 8; 9].

(** Lyrics whose lines end with LF, CR LF, the line separator U+2028 and
    NEL, with an ideographic space, a no-break space and an Ogham space
    mark around the words, a line without a tag, a tag in the middle of
    a line and a tag written with Arabic-Indic digits. *)
Definition unicode_lyrics : string :=
  ("[00:07.50] b [1:2.25] x" ++ utf8 10
   ++ "no tag [123:00]" ++ utf8 13 ++ utf8 10
   ++ "[00:03]  first" ++ utf8 12288 ++ utf8 8232
   ++ "[0:4]x" ++ utf8 160 ++ utf8 133
   ++ "[" ++ utf8 1633 ++ utf8 1634 ++ ":0" ++ utf8 1635 ++ "]"
   ++ utf8 5760 ++ "q")%string.

(* ================================================================== *)
(** * Theorems                                                         *)
(* ================================================================== *)

(** ** Runtime lemmas *)

Lemma len_nonneg {A} (l : list A) : 0 <= len l.
Proof. unfold len. lia. Qed.

Lemma len_cons {A} (x : A) (l : list A) : len (x :: l) = len l + 1.
Proof. unfold len. simpl. lia. Qed.

Lemma py_index_Ok {A} (l : list A) (i : Z) :
  0 <= i < len l ->
  exists x, l !! Z.to_nat i = Some x /\ py_index l i = Ok x.
Proof.
  intros [Hlo Hhi]. unfold py_index.
  destruct (Z.ltb_spec i 0) as [Hneg | _]; [lia |].
  destruct (Z.leb_spec 0 i) as [_ | Hneg]; [| lia].
  destruct (Z.ltb_spec i (len l)) as [_ | Hge]; [| lia].
  simpl. destruct (l !! Z.to_nat i) as [x |] eqn:Hx.
  - exists x. split; reflexivity.
  - apply lookup_ge_None in Hx. unfold len in Hhi. lia.
Qed.

Lemma next_index_spec {A} (p : A -> bool) (l : list A) (n : nat) :
  match next_index p l n with
  | Ok j =>
      exists k x, j = (n + k)%nat /\ l !! k = Some x /\ p x = true
                  /\ Forall (fun y => p y = false) (take k l)
  | Raise _ => Forall (fun y => p y = false) l
  end.
Proof.
  revert n. induction l as [| a l IH]; intros n; simpl.
  - constructor.
  - destruct (p a) eqn:Hp.
    + exists 0%nat, a. repeat split; auto.
    + specialize (IH (S n)). destruct (next_index p l (S n)) as [j | e].
      * destruct IH as (k & x & -> & Hk & Hx & Hall).
        exists (S k), x. split; [lia |]. split; [exact Hk |].
        split; [exact Hx |]. simpl. constructor; assumption.
      * constructor; assumption.
Qed.

(** ** MainWindow: starting the current track *)

Lemma play_current_valid (env : Env) (w : MainWindow.t) :
  valid_index w ->
  exists t0 w',
    MainWindow._queue w !! Z.to_nat (MainWindow._play_index w) = Some t0
    /\ MainWindow._play_current env w = Ok w'
    /\ MainWindow._queue w' = MainWindow._queue w
    /\ MainWindow._play_index w' = MainWindow._play_index w
    /\ MainWindow.player w'
       = Player.play (Player.load (path t0) (MainWindow.player w))
    /\ MainWindow.library w' = MainWindow.library w
    /\ MainWindow.playlists w' = MainWindow.playlists w.
Proof.
  intros Hv. destruct (py_index_Ok _ _ Hv) as (t0 & Hlook & Hidx).
  unfold MainWindow._play_current.
  destruct (MainWindow._queue w) as [| x q] eqn:Hq.
  - destruct Hv as [? Hlt]. rewrite Hq in Hlt. unfold len in Hlt. simpl in Hlt. lia.
  - rewrite Hidx. simpl. eexists t0, _.
    split; [exact Hlook |]. split; [reflexivity |]. simpl.
    rewrite ?Hq. repeat split; reflexivity.
Qed.

Lemma set_queue_valid (q : list Track) (i : Z) (w : MainWindow.t) :
  0 <= i < len q -> valid_index (MainWindow.set_queue q i w).
Proof. intros H. unfold valid_index. simpl. exact H. Qed.

Lemma next_track_valid (env : Env) (w : MainWindow.t) :
  valid_index w ->
  exists t0 w',
    MainWindow.next_track env w = Ok w'
    /\ MainWindow._queue w' = MainWindow._queue w
    /\ MainWindow._play_index w'
       = Z.min (len (MainWindow._queue w) - 1) (MainWindow._play_index w + 1)
    /\ MainWindow._queue w !! Z.to_nat (MainWindow._play_index w') = Some t0
    /\ MainWindow.player w'
       = Player.play (Player.load (path t0) (MainWindow.player w)).
Proof.
  intros Hv. unfold MainWindow.next_track.
  destruct (MainWindow._queue w) as [| x q] eqn:Hq.
  - destruct Hv as [? Hlt]. rewrite Hq in Hlt. unfold len in Hlt. simpl in Hlt. lia.
  - rewrite <- Hq.
    set (j := Z.min (len (MainWindow._queue w) - 1) (MainWindow._play_index w + 1)).
    assert (Hj : 0 <= j < len (MainWindow._queue w)).
    { unfold valid_index in Hv. subst j. lia. }
    destruct (play_current_valid env _ (set_queue_valid _ _ w Hj))
      as (t0 & w' & Hlook & Hrun & Hq' & Hi' & Hp' & _).
    simpl in *. exists t0, w'. rewrite Hi'. repeat split; assumption.
Qed.

Lemma prev_track_valid (env : Env) (w : MainWindow.t) :
  valid_index w ->
  exists w',
    MainWindow.prev_track env w = Ok w'
    /\ MainWindow._queue w' = MainWindow._queue w
    /\ MainWindow._play_index w'
       = (if Qgt_bool (Player.get_position_seconds (MainWindow.player w)) 3
          then MainWindow._play_index w
          else Z.max 0 (MainWindow._play_index w - 1))
    /\ if Qgt_bool (Player.get_position_seconds (MainWindow.player w)) 3
       then w' = MainWindow.set_player
                   (Player.seek_seconds 0 (MainWindow.player w)) w
       else exists t0,
              MainWindow._queue w !! Z.to_nat (MainWindow._play_index w')
              = Some t0
              /\ MainWindow.player w'
                 = Player.play (Player.load (path t0) (MainWindow.player w)).
Proof.
  intros Hv. unfold MainWindow.prev_track.
  destruct (MainWindow._queue w) as [| x q] eqn:Hq.
  - destruct Hv as [? Hlt]. rewrite Hq in Hlt. unfold len in Hlt. simpl in Hlt. lia.
  - rewrite <- Hq.
    destruct (Qgt_bool (Player.get_position_seconds (MainWindow.player w)) 3).
    + eexists. split; [reflexivity |]. simpl. repeat split; reflexivity.
    + set (j := Z.max 0 (MainWindow._play_index w - 1)).
      assert (Hj : 0 <= j < len (MainWindow._queue w)).
      { unfold valid_index in Hv. subst j. lia. }
      destruct (play_current_valid env _ (set_queue_valid _ _ w Hj))
        as (t0 & w' & Hlook & Hrun & Hq' & Hi' & Hp' & _).
      simpl in *. exists w'. split; [exact Hrun |]. split; [exact Hq' |].
      split; [exact Hi' |]. exists t0. rewrite Hi'. split; assumption.
Qed.

Lemma next_times_valid (env : Env) (n : nat) (w : MainWindow.t) :
  valid_index w ->
  exists w',
    next_times env n w = Ok w'
    /\ MainWindow._queue w' = MainWindow._queue w
    /\ MainWindow._play_index w'
       = Z.min (len (MainWindow._queue w) - 1)
               (MainWindow._play_index w + Z.of_nat n).
Proof.
  revert w. induction n as [| n IH]; intros w Hv.
  - exists w. simpl. repeat split. unfold valid_index in Hv. lia.
  - destruct (next_track_valid env w Hv) as (t0 & w1 & Hrun & Hq1 & Hi1 & _).
    assert (Hv1 : valid_index w1).
    { unfold valid_index in *. rewrite Hq1, Hi1. lia. }
    destruct (IH w1 Hv1) as (w' & Hrun' & Hq' & Hi').
    exists w'. simpl. rewrite Hrun. simpl. split; [exact Hrun' |].
    split; [congruence |]. rewrite Hi', Hq1, Hi1.
    unfold valid_index in Hv. lia.
Qed.

(** ** C5: next and previous *)

(** C5, as amended.  On a queue with a valid index, [next_track] moves the
    index by +1 clamped to the last position, without wrap-around, and
    loads and plays the track found there; [prev_track] moves the index by
    -1 clamped to 0 and loads and plays the track found there when at most
    3 seconds of the track have played, and otherwise changes nothing but
    the engine, which it seeks to 0: the index stays, the media stays, the
    clock reads 0 and [set_time(0)] is the one call made.  Pressing next
    [len(Q)] times ends at [len(Q)-1], and previous at index 0 stays at
    0. *)
Theorem advance_clamped (env : Env) (w : MainWindow.t) :
  valid_index w ->
  let q := MainWindow._queue w in
  let i := MainWindow._play_index w in
  (exists w' t0, MainWindow.next_track env w = Ok w'
     /\ MainWindow._queue w' = q
     /\ MainWindow._play_index w' = advance_spec 1 (len q) i
     /\ q !! Z.to_nat (advance_spec 1 (len q) i) = Some t0
     /\ MainWindow.player w'
        = Player.play (Player.load (path t0) (MainWindow.player w)))
  /\ (exists w', MainWindow.prev_track env w = Ok w'
     /\ MainWindow._queue w' = q
     /\ MainWindow._play_index w'
        = (if Qgt_bool (Player.get_position_seconds (MainWindow.player w)) 3
           then i else advance_spec (-1) (len q) i)
     /\ if Qgt_bool (Player.get_position_seconds (MainWindow.player w)) 3
        then
          w' = MainWindow.set_player
                 (Player.seek_seconds 0 (MainWindow.player w)) w
          /\ mp_time (Player._mp (MainWindow.player w')) = 0
          /\ mp_media (Player._mp (MainWindow.player w'))
             = mp_media (Player._mp (MainWindow.player w))
          /\ mp_calls (Player._mp (MainWindow.player w'))
             = mp_calls (Player._mp (MainWindow.player w)) ++ [SetTime 0]
        else
          exists t0,
            q !! Z.to_nat (advance_spec (-1) (len q) i) = Some t0
            /\ MainWindow.player w'
               = Player.play (Player.load (path t0) (MainWindow.player w)))
  /\ (exists w', next_times env (length q) w = Ok w'
     /\ MainWindow._queue w' = q
     /\ MainWindow._play_index w' = len q - 1)
  /\ (i = 0 ->
      exists w', MainWindow.prev_track env w = Ok w'
        /\ MainWindow._play_index w' = 0).
Proof.
  intros Hv q i. pose proof Hv as [Hlo Hhi]. fold q i in Hlo, Hhi.
  split; [| split; [| split]].
  - destruct (next_track_valid env w Hv)
      as (t0 & w' & Hrun & Hq & Hi & Hlook & Hp).
    assert (Hadv : MainWindow._play_index w' = advance_spec 1 (len q) i).
    { rewrite Hi. unfold advance_spec. fold q i. lia. }
    exists w', t0. split; [exact Hrun |]. split; [exact Hq |].
    split; [exact Hadv |]. rewrite <- Hadv. split; assumption.
  - destruct (prev_track_valid env w Hv) as (w' & Hrun & Hq & Hi & Hstate).
    exists w'. split; [exact Hrun |]. split; [exact Hq |].
    assert (Hadv : Z.max 0 (i - 1) = advance_spec (-1) (len q) i).
    { unfold advance_spec. lia. }
    fold i in Hi. rewrite Hadv in Hi. split; [exact Hi |].
    destruct (Qgt_bool _ _).
    + split; [exact Hstate |]. rewrite Hstate. simpl.
      repeat split; reflexivity.
    + destruct Hstate as (t0 & Hlook & Hp). exists t0.
      rewrite <- Hi. split; assumption.
  - destruct (next_times_valid env (length q) w Hv) as (w' & Hrun & Hq & Hi).
    exists w'. split; [exact Hrun |]. split; [exact Hq |].
    rewrite Hi. fold q i. unfold len. lia.
  - intros Hi0.
    destruct (prev_track_valid env w Hv) as (w' & Hrun & _ & Hi & _).
    exists w'. split; [exact Hrun |]. rewrite Hi. fold i.
    destruct (Qgt_bool _ _); lia.
Qed.

Lemma advance_clamped_witness :
  valid_index three_songs
  /\ exists w', next_times demo_env 3 three_songs = Ok w'
              /\ MainWindow._play_index w' = 2.
Proof.
  assert (Hv : valid_index three_songs).
  { unfold valid_index. simpl. unfold len. simpl. lia. }
  split; [exact Hv |].
  destruct (advance_clamped demo_env three_songs Hv)
    as (_ & _ & (w' & Hrun & _ & Hi) & _).
  exists w'. split; [exact Hrun | exact Hi].
Defined.

(** C5 as stated fails: one second track in, five seconds played, the
    previous button leaves the index at 1 where a clamped -1 step gives 0. *)
Lemma prev_track_restart_counterexample :
  valid_index two_songs_five_seconds_in
  /\ MainWindow._play_index
       <$> MainWindow.prev_track demo_env two_songs_five_seconds_in = Ok 1
  /\ advance_spec (-1) 2 1 = 0.
Proof.
  split; [| split].
  - unfold valid_index. simpl. unfold len. simpl. lia.
  - vm_compute. reflexivity.
  - reflexivity.
Qed.

(** ** C1: the end of a track *)

Lemma on_engine_end_repeat (env : Env) (w : MainWindow.t) :
  Player._repeat (MainWindow.player w) = true ->
  MainWindow.on_engine_end env w
  = Ok (MainWindow.set_player
          (Player.play (Player.seek_seconds 0 (MainWindow.player w))) w).
Proof.
  intros Hr. unfold MainWindow.on_engine_end, Player._on_end.
  rewrite Hr. reflexivity.
Qed.

Lemma on_engine_end_no_repeat (env : Env) (w : MainWindow.t) :
  Player._repeat (MainWindow.player w) = false ->
  MainWindow.on_engine_end env w
  = MainWindow.next_track env (MainWindow.set_player (MainWindow.player w) w).
Proof.
  intros Hr. unfold MainWindow.on_engine_end, Player._on_end.
  rewrite Hr. reflexivity.
Qed.

(** C1, as amended.  On a queue with a valid index, the end of a track
    with repeat on seeks to 0 and plays the same track again; with repeat
    off the index moves by one, clamped to the last position, and the
    track at the new index is loaded and played.  When the finished track
    is the last of the queue the index stays and that last track is loaded
    and played again: the player is playing, not paused. *)
Theorem engine_end_of_track (env : Env) (w : MainWindow.t) :
  valid_index w ->
  let q := MainWindow._queue w in
  let i := MainWindow._play_index w in
  let p := MainWindow.player w in
  exists w',
    MainWindow.on_engine_end env w = Ok w'
    /\ MainWindow._queue w' = q
    /\ (Player._repeat p = true ->
        MainWindow._play_index w' = i
        /\ MainWindow.player w' = Player.play (Player.seek_seconds 0 p)
        /\ end_of_track_spec w w')
    /\ (Player._repeat p = false ->
        exists t,
          MainWindow._play_index w' = Z.min (len q - 1) (i + 1)
          /\ q !! Z.to_nat (MainWindow._play_index w') = Some t
          /\ MainWindow.player w' = Player.play (Player.load (path t) p)
          /\ (i + 1 < len q -> end_of_track_spec w w')
          /\ (i + 1 = len q ->
              MainWindow._play_index w' = i
              /\ Player.is_playing (MainWindow.player w') = true
              /\ mp_calls (Player._mp (MainWindow.player w'))
                 = mp_calls (Player._mp p) ++ [SetMedia (path t); VlcPlay])).
Proof.
  intros Hv q i p.
  destruct (Player._repeat p) eqn:Hr.
  - eexists. split; [apply on_engine_end_repeat; exact Hr |].
    split; [reflexivity |]. split; [| intros; discriminate].
    intros _. split; [reflexivity |]. split; [reflexivity |].
    unfold end_of_track_spec. fold p. rewrite Hr. simpl.
    repeat split; reflexivity.
  - assert (Hv' : valid_index (MainWindow.set_player p w)) by exact Hv.
    destruct (next_track_valid env _ Hv') as (t & w' & Hrun & Hq & Hi & Hlook & Hp).
    simpl in Hq, Hi, Hlook, Hp. fold q i in Hi, Hlook.
    exists w'. split; [rewrite on_engine_end_no_repeat; assumption |].
    split; [exact Hq |]. split; [intros; discriminate |].
    intros _. exists t. split; [exact Hi |]. split; [exact Hlook |].
    split; [exact Hp |]. split.
    + intros Hnext. unfold end_of_track_spec. fold p q i. rewrite Hr.
      destruct (Z.ltb_spec (i + 1) (len q)) as [_ | Hge]; [| lia].
      assert (Hi' : MainWindow._play_index w' = i + 1) by lia.
      rewrite Hp. split; [exact Hi' |]. rewrite Hi' in Hlook.
      simpl. rewrite Hlook. split; reflexivity.
    + intros Hlast. split; [lia |]. rewrite Hp. split; [reflexivity |].
      simpl. rewrite <- app_assoc. reflexivity.
Qed.

Lemma engine_end_of_track_witness :
  valid_index two_songs_at_last
  /\ exists w', MainWindow.on_engine_end demo_env two_songs_at_last = Ok w'
              /\ MainWindow._queue w' = [song_a; song_b].
Proof.
  assert (Hv : valid_index two_songs_at_last).
  { unfold valid_index. simpl. unfold len. simpl. lia. }
  split; [exact Hv |].
  destruct (engine_end_of_track demo_env two_songs_at_last Hv)
    as (w' & Hrun & Hq & _).
  exists w'. split; [exact Hrun | exact Hq].
Defined.

(** C1 as stated fails at the last track: the engine is sent the last
    track and a play call, and the player ends up playing. *)
Lemma end_of_last_track_counterexample :
  exists w',
    MainWindow.on_engine_end demo_env two_songs_at_last = Ok w'
    /\ ~ end_of_track_spec two_songs_at_last w'.
Proof.
  eexists. split; [reflexivity |].
  unfold end_of_track_spec. simpl. intros (_ & Hplaying & _). discriminate.
Qed.

(** ** C4: playing a track of the library *)

Lemma rotation_nonempty {A} (l : list A) (k : nat) (x : A) :
  l !! k = Some x -> 0 <= 0 < len (drop k l ++ take k l).
Proof.
  intros Hk. apply lookup_lt_Some in Hk. unfold len.
  rewrite length_app, length_drop, length_take. lia.
Qed.

Lemma play_track_queue (env : Env) (t0 : Track) (w : MainWindow.t)
    (q : list Track) :
  0 <= 0 < len q ->
  (match next_index (fun x => bool_decide (path x = path t0))
           (LibraryPane.tracks (MainWindow.library w)) 0 with
   | Ok i => drop i (LibraryPane.tracks (MainWindow.library w))
             ++ take i (LibraryPane.tracks (MainWindow.library w))
   | Raise _ => [t0]
   end) = q ->
  exists w', MainWindow.play_track env t0 w = Ok w'
             /\ MainWindow._queue w' = q
             /\ MainWindow._play_index w' = 0.
Proof.
  intros Hq Hsel. unfold MainWindow.play_track. rewrite Hsel.
  destruct (play_current_valid env _ (set_queue_valid q 0 w Hq))
    as (t1 & w1 & _ & Hrun & Hq1 & Hi1 & _).
  rewrite Hrun. simpl. eexists. split; [reflexivity |]. simpl.
  split; assumption.
Qed.

(** The track at the first index whose path is that of [t0] heads the
    queue, whether or not later entries repeat the path. *)
Lemma play_track_first_match (env : Env) (w : MainWindow.t) (t0 x : Track) (k : nat) :
  let catalog := LibraryPane.tracks (MainWindow.library w) in
  catalog !! k = Some x -> path x = path t0 ->
  Forall (fun y => path y <> path t0) (take k catalog) ->
  exists w', MainWindow.play_track env t0 w = Ok w'
    /\ MainWindow._queue w' = drop k catalog ++ take k catalog
    /\ MainWindow._play_index w' = 0.
Proof.
  intros catalog Hk Hpath Hbefore.
  apply play_track_queue; [eapply rotation_nonempty; exact Hk |].
  fold catalog.
  pose proof (next_index_spec (fun y => bool_decide (path y = path t0)) catalog 0)
    as Hspec.
  destruct (next_index _ catalog 0) as [j | e].
  - destruct Hspec as (k' & x' & -> & Hk' & Hx' & Hall').
    apply bool_decide_eq_true in Hx'. simpl.
    assert (k' = k) as ->; [| reflexivity].
    destruct (Nat.lt_trichotomy k' k) as [Hlt | [Heq | Hgt]]; [| exact Heq |].
    + exfalso. rewrite Forall_forall in Hbefore. apply (Hbefore x'); [| exact Hx'].
      eapply list_elem_of_lookup_2. rewrite lookup_take_lt by exact Hlt. exact Hk'.
    + exfalso. rewrite Forall_forall in Hall'.
      assert (Hin : x ∈ take k' catalog).
      { eapply list_elem_of_lookup_2. rewrite lookup_take_lt by exact Hgt. exact Hk. }
      specialize (Hall' x Hin). apply bool_decide_eq_false in Hall'. contradiction.
  - exfalso. rewrite Forall_forall in Hspec.
    assert (Hin : x ∈ catalog) by (eapply list_elem_of_lookup_2; exact Hk).
    specialize (Hspec x Hin). apply bool_decide_eq_false in Hspec. contradiction.
Qed.

(** The first entry with the path of a listed track is at or before that
    track, and nothing before it has the path. *)
Lemma first_match_before (catalog : list Track) (t0 : Track) (k : nat) :
  catalog !! k = Some t0 ->
  exists j x, (j <= k)%nat /\ catalog !! j = Some x /\ path x = path t0
    /\ Forall (fun y => path y <> path t0) (take j catalog).
Proof.
  intros Hk.
  pose proof (next_index_spec (fun y => bool_decide (path y = path t0)) catalog 0)
    as Hspec.
  destruct (next_index _ catalog 0) as [i | e].
  - destruct Hspec as (j & x & _ & Hj & Hx & Hall).
    apply bool_decide_eq_true in Hx. exists j, x.
    split; [| split; [exact Hj | split; [exact Hx |]]].
    + destruct (Nat.le_gt_cases j k) as [Hle | Hgt]; [exact Hle | exfalso].
      rewrite Forall_forall in Hall.
      assert (Hin : t0 ∈ take j catalog).
      { eapply list_elem_of_lookup_2. rewrite lookup_take_lt by exact Hgt. exact Hk. }
      specialize (Hall t0 Hin). apply bool_decide_eq_false in Hall.
      apply Hall. reflexivity.
    + eapply Forall_impl; [exact Hall |]. intros y Hy.
      apply bool_decide_eq_false in Hy. exact Hy.
  - exfalso. rewrite Forall_forall in Hspec.
    assert (Hin : t0 ∈ catalog) by (eapply list_elem_of_lookup_2; exact Hk).
    specialize (Hspec t0 Hin). apply bool_decide_eq_false in Hspec.
    apply Hspec. reflexivity.
Qed.

Lemma NoDup_paths_before (catalog : list Track) (t0 : Track) (k : nat) :
  NoDup (path <$> catalog) -> catalog !! k = Some t0 ->
  Forall (fun y => path y <> path t0) (take k catalog).
Proof.
  intros Hnd Hk. rewrite Forall_forall. intros y Hy Heq.
  apply list_elem_of_lookup in Hy as [j Hj].
  assert (Hjk : (j < k)%nat).
  { apply lookup_lt_Some in Hj. rewrite length_take in Hj. lia. }
  rewrite lookup_take_lt in Hj by exact Hjk.
  assert (j = k); [| lia].
  apply (NoDup_lookup (path <$> catalog) j k (path t0)); [exact Hnd | |].
  - rewrite list_lookup_fmap, Hj. simpl. congruence.
  - rewrite list_lookup_fmap, Hk. reflexivity.
Qed.

Lemma play_track_absent (env : Env) (w : MainWindow.t) (t0 : Track) :
  path t0 ∉ path <$> LibraryPane.tracks (MainWindow.library w) ->
  exists w', MainWindow.play_track env t0 w = Ok w'
    /\ MainWindow._queue w' = [t0]
    /\ MainWindow._play_index w' = 0.
Proof.
  intros Habs. apply play_track_queue; [unfold len; simpl; lia |].
  pose proof (next_index_spec (fun x => bool_decide (path x = path t0))
                (LibraryPane.tracks (MainWindow.library w)) 0) as Hspec.
  destruct (next_index _ _ 0) as [j | e]; [| reflexivity].
  exfalso. destruct Hspec as (k' & x & _ & Hk' & Hx & _).
  apply bool_decide_eq_true in Hx. apply Habs.
  rewrite <- Hx. apply list_elem_of_fmap_2.
  eapply list_elem_of_lookup_2. exact Hk'.
Qed.

(** C4, as amended.  [play_track] looks the track up by path and rotates
    the catalog at the first entry with that path.  So playing the track
    at index [k] makes the queue [catalog[k:] + catalog[:k]] with index 0
    whenever no earlier entry has its path, which holds for every [k] in
    a catalog whose paths are pairwise distinct; in any catalog the queue
    is the rotation at the first index [j <= k] that holds the path.
    Playing a track whose path is not in the catalog makes the queue the
    singleton of that track, index 0. *)
Theorem play_track_rotates (env : Env) (w : MainWindow.t) (t0 : Track) (k : nat) :
  let catalog := LibraryPane.tracks (MainWindow.library w) in
  (catalog !! k = Some t0 ->
   Forall (fun y => path y <> path t0) (take k catalog) ->
   exists w', MainWindow.play_track env t0 w = Ok w'
     /\ MainWindow._queue w' = drop k catalog ++ take k catalog
     /\ MainWindow._play_index w' = 0)
  /\ (catalog !! k = Some t0 ->
     NoDup (path <$> catalog) ->
     exists w', MainWindow.play_track env t0 w = Ok w'
       /\ MainWindow._queue w' = drop k catalog ++ take k catalog
       /\ MainWindow._play_index w' = 0)
  /\ (catalog !! k = Some t0 ->
     exists j x w',
       (j <= k)%nat /\ catalog !! j = Some x /\ path x = path t0
       /\ Forall (fun y => path y <> path t0) (take j catalog)
       /\ MainWindow.play_track env t0 w = Ok w'
       /\ MainWindow._queue w' = drop j catalog ++ take j catalog
       /\ MainWindow._play_index w' = 0)
  /\ (path t0 ∉ path <$> catalog ->
     exists w', MainWindow.play_track env t0 w = Ok w'
       /\ MainWindow._queue w' = [t0]
       /\ MainWindow._play_index w' = 0).
Proof.
  intros catalog. split; [| split; [| split]].
  - intros Hk Hbefore.
    exact (play_track_first_match env w t0 t0 k Hk eq_refl Hbefore).
  - intros Hk Hnd.
    exact (play_track_first_match env w t0 t0 k Hk eq_refl
             (NoDup_paths_before catalog t0 k Hnd Hk)).
  - intros Hk.
    destruct (first_match_before catalog t0 k Hk) as (j & x & Hjk & Hj & Hx & Hall).
    destruct (play_track_first_match env w t0 x j Hj Hx Hall)
      as (w' & Hrun & Hq & Hi).
    exists j, x, w'. repeat split; assumption.
  - apply play_track_absent.
Qed.

Lemma play_track_rotates_witness :
  NoDup (path <$> LibraryPane.tracks (MainWindow.library three_songs))
  /\ (exists w', MainWindow.play_track demo_env song_b three_songs = Ok w'
        /\ MainWindow._queue w' = [song_b; song_c; song_a]
        /\ MainWindow._play_index w' = 0)
  /\ (exists w', MainWindow.play_track nested_folders_env live_b
                   nested_folders_window = Ok w'
        /\ MainWindow._queue w' = [live_b; live_b; song_a]
        /\ MainWindow._play_index w' = 0)
  /\ (exists w', MainWindow.play_track demo_env song_c two_songs_at_last = Ok w'
        /\ MainWindow._queue w' = [song_c]
        /\ MainWindow._play_index w' = 0).
Proof.
  assert (Hnd3 : NoDup (path <$> LibraryPane.tracks (MainWindow.library three_songs))).
  { apply (bool_decide_unpack _). vm_compute. exact I. }
  split; [exact Hnd3 |]. split; [| split].
  - apply (proj1 (proj2 (play_track_rotates demo_env three_songs song_b 1)));
      [reflexivity | exact Hnd3].
  - apply (proj1 (play_track_rotates nested_folders_env nested_folders_window
                    live_b 1)); [reflexivity |].
    repeat constructor. simpl. discriminate.
  - apply (proj2 (proj2 (proj2
             (play_track_rotates demo_env two_songs_at_last song_c 0)))).
    apply (bool_decide_unpack _). vm_compute. exact I.
Defined.

(** C4 as stated fails on a catalog that lists a path twice, as [load]
    builds it for a music folder inside another music folder.  The
    catalog is [a; b; b]; clicking the third row plays the track at index
    2, where [catalog[2:] + catalog[:2]] is [b; a; b], but the queue
    becomes the rotation at index 1, [b; b; a]. *)
Lemma repeated_path_counterexample :
  let catalog := LibraryPane.tracks (MainWindow.library nested_folders_window) in
  catalog = [song_a; live_b; live_b]
  /\ catalog !! 2%nat = Some live_b
  /\ drop 2 catalog ++ take 2 catalog = [live_b; song_a; live_b]
  /\ (MainWindow._queue
        <$> MainWindow.play_track nested_folders_env live_b nested_folders_window)
     = Ok [live_b; live_b; song_a]
  /\ (MainWindow._play_index
        <$> MainWindow.play_track nested_folders_env live_b nested_folders_window)
     = Ok 0
  /\ [live_b; live_b; song_a] <> drop 2 catalog ++ take 2 catalog.
Proof.
  repeat split; try (vm_compute; reflexivity). vm_compute. discriminate.
Qed.

(** ** C6: rebuilding the queue after a manual reorder *)

(** C6.  The external order is the list of tracks carried by the rows of
    the queue table.  When it is empty the window is left as it was; when
    it is not, the queue becomes exactly that order and the index is the
    old one clamped to the new last position. *)
Theorem rebuild_queue_from_table_spec (w : MainWindow.t) :
  let order := omap q_track (MainWindow.queue_table w) in
  let w' := MainWindow._rebuild_queue_from_table w in
  (order = [] -> w' = w)
  /\ (order <> [] ->
      MainWindow._queue w' = order
      /\ MainWindow._play_index w'
         = Z.min (MainWindow._play_index w) (len order - 1)
      /\ (0 <= MainWindow._play_index w ->
          0 <= MainWindow._play_index w' < len order)
      /\ (0 <= MainWindow._play_index w < len order ->
          MainWindow._play_index w' = MainWindow._play_index w)
      /\ MainWindow.player w' = MainWindow.player w
      /\ MainWindow.queue_table w' = MainWindow.queue_table w).
Proof.
  intros order w'. subst w'. unfold MainWindow._rebuild_queue_from_table.
  fold order. split.
  - intros ->. reflexivity.
  - intros Hne. destruct order as [| x r] eqn:Ho; [congruence |].
    simpl. split; [reflexivity |]. split; [reflexivity |].
    pose proof (len_nonneg r). rewrite len_cons.
    split; [lia |]. split; [lia |]. split; reflexivity.
Qed.

Lemma rebuild_queue_from_table_spec_witness :
  (omap q_track (MainWindow.queue_table
                   (with_table [empty_row; empty_row] three_songs)) = []
   /\ MainWindow._rebuild_queue_from_table
        (with_table [empty_row; empty_row] three_songs)
      = with_table [empty_row; empty_row] three_songs)
  /\ (omap q_track (MainWindow.queue_table
                      (with_table [row_of song_b; empty_row; row_of song_a]
                                  two_songs_at_last)) <> []
      /\ MainWindow._queue
           (MainWindow._rebuild_queue_from_table
              (with_table [row_of song_b; empty_row; row_of song_a]
                          two_songs_at_last))
         = [song_b; song_a]).
Proof.
  split.
  - split; [reflexivity |].
    apply (proj1 (rebuild_queue_from_table_spec
                    (with_table [empty_row; empty_row] three_songs))).
    reflexivity.
  - assert (Hne : omap q_track
                    (MainWindow.queue_table
                       (with_table [row_of song_b; empty_row; row_of song_a]
                                   two_songs_at_last)) <> [])
      by (simpl; discriminate).
    split; [exact Hne |].
    apply (proj2 (rebuild_queue_from_table_spec _) Hne).
Defined.

(** ** C7: reading metadata *)

(** [read_metadata] with the monad unfolded: which step fails decides
    which of the locals have been assigned. *)
Lemma read_metadata_cases (mu : Mutagen) (path : string) :
  read_metadata mu path
  = match MP3_length mu path with
    | Raise _ => Ok (file_stem path, EmptyString, EmptyString, EmptyString, 0%Q)
    | Ok length =>
        match EasyID3 mu path with
        | Raise _ =>
            Ok (file_stem path, EmptyString, EmptyString, EmptyString, length)
        | Ok eid =>
            match eid_first eid "title" [file_stem path] with
            | Raise _ =>
                Ok (file_stem path, EmptyString, EmptyString, EmptyString, length)
            | Ok t =>
                match eid_first eid "artist" ["Unknown Artist"%string] with
                | Raise _ =>
                    Ok (file_stem path, EmptyString, EmptyString, EmptyString,
                        length)
                | Ok a =>
                    match eid_first eid "album" [EmptyString] with
                    | Raise _ =>
                        Ok (file_stem path, a, EmptyString, EmptyString, length)
                    | Ok b =>
                        match eid_first eid "genre" [EmptyString] with
                        | Raise _ =>
                            Ok (file_stem path, a, b, EmptyString, length)
                        | Ok g =>
                            Ok (replace "(Official Video)" EmptyString
                                  (replace "(Animated Video)" EmptyString
                                     (replace "(Lyrics)" EmptyString t)),
                                a, b, g, length)
                        end
                    end
                end
            end
        end
    end.
Proof.
  unfold read_metadata, read_metadata_body, md_try.
  unfold mbind, md_bind, md_lift. simpl.
  destruct (MP3_length mu path); [simpl | reflexivity].
  destruct (EasyID3 mu path); [simpl | reflexivity].
  repeat (destruct (eid_first _ _ _); [simpl | reflexivity]).
  reflexivity.
Qed.

(** C7, as amended.  [read_metadata] never raises.  When the audio file
    cannot be parsed it answers the file name without extension, empty
    text fields and duration 0.  When the audio parses and the tags do
    not, the title is the file name without extension and the genre is
    empty, but the duration is the length already read from the audio.
    The artist and album are then exactly what was assigned before the
    failing step: both empty when the tag header, the title or the artist
    fails; the artist read and an empty album when the album fails; the
    artist and album read when the genre fails.  When nothing fails the
    answer is the cleaned title and the four values read. *)
Theorem read_metadata_never_raises (mu : Mutagen) (path : string) :
  (exists r, read_metadata mu path = Ok r)
  /\ (forall e, MP3_length mu path = Raise e ->
      read_metadata mu path = Ok (metadata_fallback path))
  /\ (forall length e, MP3_length mu path = Ok length ->
      EasyID3 mu path = Raise e ->
      read_metadata mu path
      = Ok (file_stem path, EmptyString, EmptyString, EmptyString, length))
  /\ (forall length eid, MP3_length mu path = Ok length ->
      EasyID3 mu path = Ok eid ->
      let title_read := eid_first eid "title" [file_stem path] in
      let artist_read := eid_first eid "artist" ["Unknown Artist"%string] in
      let album_read := eid_first eid "album" [EmptyString] in
      let genre_read := eid_first eid "genre" [EmptyString] in
      (raises title_read || raises artist_read = true ->
       read_metadata mu path
       = Ok (file_stem path, EmptyString, EmptyString, EmptyString, length))
      /\ (forall t a, title_read = Ok t -> artist_read = Ok a ->
          raises album_read = true ->
          read_metadata mu path
          = Ok (file_stem path, a, EmptyString, EmptyString, length))
      /\ (forall t a b, title_read = Ok t -> artist_read = Ok a ->
          album_read = Ok b -> raises genre_read = true ->
          read_metadata mu path
          = Ok (file_stem path, a, b, EmptyString, length))
      /\ (forall t a b g, title_read = Ok t -> artist_read = Ok a ->
          album_read = Ok b -> genre_read = Ok g ->
          read_metadata mu path
          = Ok (replace "(Official Video)" EmptyString
                  (replace "(Animated Video)" EmptyString
                     (replace "(Lyrics)" EmptyString t)),
                a, b, g, length))
      /\ (tag_value_missing eid path = true ->
          exists artist_kept album_kept,
            read_metadata mu path
            = Ok (file_stem path, artist_kept, album_kept, EmptyString,
                  length))).
Proof.
  rewrite read_metadata_cases. split; [| split; [| split]].
  - destruct (MP3_length mu path); [| eexists; reflexivity].
    destruct (EasyID3 mu path); [| eexists; reflexivity].
    repeat (destruct (eid_first _ _ _); [| eexists; reflexivity]).
    eexists; reflexivity.
  - intros e ->. reflexivity.
  - intros length e -> ->. reflexivity.
  - intros length eid -> -> title_read artist_read album_read genre_read.
    subst title_read artist_read album_read genre_read.
    split; [| split; [| split; [| split]]].
    + destruct (eid_first eid "title" _); [| reflexivity].
      destruct (eid_first eid "artist" _); [| reflexivity].
      simpl. discriminate.
    + intros t a -> ->.
      destruct (eid_first eid "album" _); [simpl; discriminate | reflexivity].
    + intros t a b -> -> ->.
      destruct (eid_first eid "genre" _); [simpl; discriminate | reflexivity].
    + intros t a b g -> -> -> ->. reflexivity.
    + intros Hmiss. unfold tag_value_missing in Hmiss.
    destruct (eid_first eid "title" _); [| eexists _, _; reflexivity].
    destruct (eid_first eid "artist" _); [| eexists _, _; reflexivity].
    destruct (eid_first eid "album" _); [| eexists _, _; reflexivity].
    destruct (eid_first eid "genre" _); [| eexists _, _; reflexivity].
    discriminate Hmiss.
Qed.

Lemma read_metadata_never_raises_witness :
  read_metadata not_audio "/m/a.mp3" = Ok (metadata_fallback "/m/a.mp3")
  /\ read_metadata untagged_mp3 "/m/a.mp3"
     = Ok ("a"%string, EmptyString, EmptyString, EmptyString, 200%Q)
  /\ read_metadata empty_genre_list "/m/a.mp3"
     = Ok ("a"%string, "Artist A"%string, "Album A"%string, EmptyString,
           200%Q).
Proof.
  split; [| split].
  - apply (proj1 (proj2 (read_metadata_never_raises not_audio "/m/a.mp3"))
             MutagenError).
    reflexivity.
  - apply (proj1 (proj2 (proj2 (read_metadata_never_raises untagged_mp3 "/m/a.mp3")))
             200%Q MutagenError); reflexivity.
  - pose proof (proj2 (proj2 (proj2
        (read_metadata_never_raises empty_genre_list "/m/a.mp3")))
        200%Q _ eq_refl eq_refl) as (_ & _ & Hgenre & _).
    apply (Hgenre "Song A"%string); reflexivity.
Defined.

(** C7 as stated fails: for an MP3 file without tags parsing fails, and
    the duration answered is the length of the audio, not 0. *)
Lemma untagged_duration_counterexample :
  parse_failure untagged_mp3 "/m/a.mp3" = true
  /\ read_metadata untagged_mp3 "/m/a.mp3"
     = Ok ("a"%string, EmptyString, EmptyString, EmptyString, 200%Q)
  /\ read_metadata untagged_mp3 "/m/a.mp3" <> Ok (metadata_fallback "/m/a.mp3").
Proof.
  split; [reflexivity |]. split; [reflexivity |]. discriminate.
Qed.

(** ** C2: late metadata results *)

Lemma update_row_out_of_range (u : row_update) (lib : LibraryPane.t) :
  LibraryPane.rowCount lib <= u_row u ->
  LibraryPane._update_row u lib = Ok lib.
Proof.
  intros Hge. unfold LibraryPane._update_row.
  destruct (Z.leb_spec (LibraryPane.rowCount lib) (u_row u)); [reflexivity | lia].
Qed.

Lemma update_row_never_raises (u : row_update) (lib : LibraryPane.t) :
  0 <= u_row u -> exists lib', LibraryPane._update_row u lib = Ok lib'.
Proof.
  intros Hrow. unfold LibraryPane._update_row.
  destruct (Z.leb_spec (LibraryPane.rowCount lib) (u_row u)); [eauto |].
  destruct (Z.ltb_spec (u_row u) 0); [lia | eauto].
Qed.

Lemma fmap_alter_invariant {A B} (g : A -> B) (f : A -> A) (i : Z) (l : list A) :
  (forall x, g (f x) = g x) -> g <$> list_alter_Z f i l = g <$> l.
Proof.
  intros Hg. unfold list_alter_Z. generalize (Z.to_nat i) as n.
  induction l as [| x l IH]; intros [| n]; simpl; try reflexivity.
  - rewrite Hg. reflexivity.
  - f_equal. apply IH.
Qed.

Lemma update_row_keeps_paths (u : row_update) (lib lib' : LibraryPane.t) :
  LibraryPane._update_row u lib = Ok lib' ->
  path <$> LibraryPane.tracks lib' = path <$> LibraryPane.tracks lib.
Proof.
  unfold LibraryPane._update_row.
  destruct (Z.leb_spec (LibraryPane.rowCount lib) (u_row u)); [congruence |].
  destruct (Z.ltb_spec (u_row u) 0); [discriminate |].
  intros [= <-]. unfold LibraryPane.tracks. simpl.
  destruct (u_row u <? len (LibraryPane._tracks lib)); [| reflexivity].
  apply fmap_alter_invariant. intros x. reflexivity.
Qed.

(** What [_update_row] does to the entry it lands on: the table row at
    the row number gets the five strings of the result and keeps its path
    cell; every other row is as before. *)
Lemma update_row_table (u : row_update) (lib lib' : LibraryPane.t) :
  LibraryPane._update_row u lib = Ok lib' ->
  u_row u < LibraryPane.rowCount lib ->
  (forall r, LibraryPane.table lib !! Z.to_nat (u_row u) = Some r ->
     LibraryPane.table lib' !! Z.to_nat (u_row u)
     = Some (mkLibRow (u_title u) (u_artist u) (u_album u) (u_genre u)
                      (u_dur_str u) (c_path r)))
  /\ (forall j, j <> Z.to_nat (u_row u) ->
      LibraryPane.table lib' !! j = LibraryPane.table lib !! j).
Proof.
  unfold LibraryPane._update_row. intros Hrun Hin.
  destruct (Z.leb_spec (LibraryPane.rowCount lib) (u_row u)); [lia |].
  destruct (Z.ltb_spec (u_row u) 0); [discriminate |].
  injection Hrun as <-. unfold list_alter_Z. simpl. split.
  - intros r Hr. rewrite list_lookup_alter_eq, Hr. reflexivity.
  - intros j Hj. apply list_lookup_alter_ne. congruence.
Qed.

(** The same for the catalog: the track at the row number keeps its path
    and gets the four texts and the parsed duration; every other track is
    as before, and so is the whole catalog when it is shorter than the
    row number. *)
Lemma update_row_tracks (u : row_update) (lib lib' : LibraryPane.t) :
  LibraryPane._update_row u lib = Ok lib' ->
  u_row u < LibraryPane.rowCount lib ->
  (forall t0, LibraryPane.tracks lib !! Z.to_nat (u_row u) = Some t0 ->
     LibraryPane.tracks lib' !! Z.to_nat (u_row u)
     = Some (mkTrack (path t0) (u_title u) (u_artist u) (u_album u)
                     (u_genre u) (LibraryPane.parse_duration (u_dur_str u))))
  /\ (forall j, j <> Z.to_nat (u_row u) ->
      LibraryPane.tracks lib' !! j = LibraryPane.tracks lib !! j)
  /\ (len (LibraryPane.tracks lib) <= u_row u ->
      LibraryPane.tracks lib' = LibraryPane.tracks lib).
Proof.
  unfold LibraryPane._update_row. intros Hrun Hin.
  destruct (Z.leb_spec (LibraryPane.rowCount lib) (u_row u)); [lia |].
  destruct (Z.ltb_spec (u_row u) 0); [discriminate |].
  injection Hrun as <-. unfold LibraryPane.tracks, list_alter_Z. simpl.
  destruct (Z.ltb_spec (u_row u) (len (LibraryPane._tracks lib))) as [Hlt | Hge].
  - split; [| split].
    + intros t0 Ht. rewrite list_lookup_alter_eq, Ht. reflexivity.
    + intros j Hj. apply list_lookup_alter_ne. congruence.
    + intros Hle. lia.
  - split; [| split]; [| reflexivity | reflexivity].
    intros t0 Ht. apply lookup_lt_Some in Ht. unfold len in Hge. lia.
Qed.

(** C2, as amended.  A queued result is identified by its row number.
    Applying it never raises (row numbers come from [enumerate], so they
    are not negative), it never changes the path of a catalog entry, the
    folders or the number of rows, and it changes nothing at all when its
    row number is no longer in the table.  When the row number is in the
    table, the result lands on that row and on no other: the row gets the
    five strings and keeps its path cell, the track at that position
    keeps its path and gets the four texts and the duration parsed from
    the duration string, and every other row and track is as before. *)
Theorem late_update_by_row (u : row_update) (lib : LibraryPane.t) :
  0 <= u_row u ->
  exists lib',
    LibraryPane._update_row u lib = Ok lib'
    /\ path <$> LibraryPane.tracks lib' = path <$> LibraryPane.tracks lib
    /\ LibraryPane.folders lib' = LibraryPane.folders lib
    /\ LibraryPane.rowCount lib' = LibraryPane.rowCount lib
    /\ (LibraryPane.rowCount lib <= u_row u -> lib' = lib)
    /\ (forall j, j <> Z.to_nat (u_row u) ->
        LibraryPane.table lib' !! j = LibraryPane.table lib !! j
        /\ LibraryPane.tracks lib' !! j = LibraryPane.tracks lib !! j)
    /\ (forall r, LibraryPane.table lib !! Z.to_nat (u_row u) = Some r ->
        LibraryPane.table lib' !! Z.to_nat (u_row u)
        = Some (mkLibRow (u_title u) (u_artist u) (u_album u) (u_genre u)
                         (u_dur_str u) (c_path r)))
    /\ (forall t0, LibraryPane.tracks lib !! Z.to_nat (u_row u) = Some t0 ->
        u_row u < LibraryPane.rowCount lib ->
        LibraryPane.tracks lib' !! Z.to_nat (u_row u)
        = Some (mkTrack (path t0) (u_title u) (u_artist u) (u_album u)
                        (u_genre u)
                        (LibraryPane.parse_duration (u_dur_str u))))
    /\ (len (LibraryPane.tracks lib) <= u_row u ->
        LibraryPane.tracks lib' = LibraryPane.tracks lib).
Proof.
  intros Hrow.
  destruct (update_row_never_raises u lib Hrow) as [lib' Hrun].
  exists lib'. split; [exact Hrun |].
  split; [exact (update_row_keeps_paths u lib lib' Hrun) |].
  split; [| split; [| split]].
  - revert Hrun. unfold LibraryPane._update_row.
    destruct (LibraryPane.rowCount lib <=? u_row u); [congruence |].
    destruct (u_row u <? 0); [discriminate |]. intros [= <-]. reflexivity.
  - revert Hrun. unfold LibraryPane._update_row.
    destruct (LibraryPane.rowCount lib <=? u_row u); [congruence |].
    destruct (u_row u <? 0); [discriminate |]. intros [= <-].
    unfold LibraryPane.rowCount, len, list_alter_Z. simpl.
    rewrite length_alter. reflexivity.
  - intros Hout. rewrite (update_row_out_of_range u lib Hout) in Hrun. congruence.
  - destruct (Z.le_gt_cases (LibraryPane.rowCount lib) (u_row u)) as [Hout | Hin].
    + rewrite (update_row_out_of_range u lib Hout) in Hrun.
      injection Hrun as <-.
      split; [intros j _; split; reflexivity |].
      split; [| split; [| reflexivity]].
      * intros r Hr. apply lookup_lt_Some in Hr.
        unfold LibraryPane.rowCount, len in Hout. lia.
      * intros t0 _ Hlt. lia.
    + destruct (update_row_table u lib lib' Hrun) as [Hcell Hrows]; [lia |].
      destruct (update_row_tracks u lib lib' Hrun) as (Htrack & Hothers & Hshort);
        [lia |].
      split; [intros j Hj; split; [apply Hrows | apply Hothers]; exact Hj |].
      split; [exact Hcell |].
      split; [intros t0 Ht _; apply Htrack; exact Ht | exact Hshort].
Qed.

Lemma late_update_by_row_witness :
  0 <= u_row late_update_for_a
  /\ exists lib',
       LibraryPane._update_row late_update_for_a library_ab = Ok lib'
       /\ path <$> LibraryPane.tracks lib' = ["/m/a.mp3"; "/m/b.mp3"]%string
       /\ LibraryPane.tracks lib' !! 1%nat = LibraryPane.tracks library_ab !! 1%nat
       /\ LibraryPane.tracks lib' !! 0%nat
          = Some (mkTrack "/m/a.mp3" "Song A " "Artist A" EmptyString
                          EmptyString (inject_Z 187)).
Proof.
  assert (Hrow : 0 <= u_row late_update_for_a) by (simpl; lia).
  split; [exact Hrow |].
  destruct (late_update_by_row late_update_for_a library_ab Hrow)
    as (lib' & Hrun & Hpaths & _ & _ & _ & Hframe & _ & Htrack & _).
  exists lib'. split; [exact Hrun |]. split; [exact Hpaths |].
  split; [apply (Hframe 1%nat); simpl; lia |].
  apply (Htrack (mkTrack "/m/a.mp3" "a" "Unknown Artist" EmptyString
                         EmptyString 0)).
  - reflexivity.
  - vm_compute. reflexivity.
Defined.

(** C2 as stated fails.  The worker reads the tags of [/m/a.mp3] for
    row 0; before the result is applied the file is gone and a rescan
    leaves only [/m/b.mp3], now at row 0.  The late result does not raise,
    but it is applied by row number: the entry of [/m/b.mp3] receives the
    title, artist and duration read from [/m/a.mp3]. *)
Lemma stale_update_counterexample :
  LibraryPane._load_metadata_async_step tagged_songs library_ab 0 "/m/a.mp3"
  = Some (Ok late_update_for_a)
  /\ ("/m/a.mp3"%string ∉ path <$> LibraryPane.tracks library_b_after_rescan)
  /\ LibraryPane.tracks library_b_after_rescan
     = [mkTrack "/m/b.mp3" "b" "Unknown Artist" EmptyString EmptyString 0]
  /\ (LibraryPane.tracks
        <$> LibraryPane._update_row late_update_for_a library_b_after_rescan)
     = Ok [mkTrack "/m/b.mp3" "Song A " "Artist A" EmptyString EmptyString
                   (inject_Z 187)]
  /\ ~ late_result_dropped "/m/a.mp3" late_update_for_a library_b_after_rescan.
Proof.
  split; [vm_compute; reflexivity |].
  assert (Habs : "/m/a.mp3"%string
                 ∉ path <$> LibraryPane.tracks library_b_after_rescan).
  { apply (bool_decide_unpack _). vm_compute. exact I. }
  split; [exact Habs |]. split; [reflexivity |].
  split; [vm_compute; reflexivity |].
  intros Hdrop. specialize (Hdrop Habs). vm_compute in Hdrop. discriminate Hdrop.
Qed.

(** ** Stable insertion sort *)

Section StableSortFacts.
Context {A : Type} (le : A -> A -> bool).
Hypothesis le_total : forall x y, le x y = true \/ le y x = true.
Hypothesis le_trans : forall x y z, le x y = true -> le y z = true -> le x z = true.

Lemma insert_sorted_perm (x : A) (l : list A) :
  insert_sorted le x l ≡ₚ x :: l.
Proof.
  induction l as [| y r IH]; simpl; [reflexivity |].
  destruct (le x y); [reflexivity |].
  rewrite IH. apply Permutation_swap.
Qed.

Lemma stable_sort_perm (l : list A) : stable_sort le l ≡ₚ l.
Proof.
  induction l as [| x l IH]; simpl; [reflexivity |].
  rewrite insert_sorted_perm. rewrite IH. reflexivity.
Qed.

Lemma insert_sorted_sorted (x : A) (l : list A) :
  StronglySorted (fun a b => le a b = true) l ->
  StronglySorted (fun a b => le a b = true) (insert_sorted le x l).
Proof.
  induction 1 as [| y r Hs IH Hall]; simpl.
  - repeat constructor.
  - destruct (le x y) eqn:Hxy.
    + constructor; [constructor; assumption |].
      constructor; [exact Hxy |].
      eapply Forall_impl; [exact Hall |]. intros z Hz. eapply le_trans; eauto.
    + constructor; [exact IH |].
      assert (Hyx : le y x = true) by (destruct (le_total x y); congruence).
      apply Forall_forall. intros z Hz.
      rewrite (insert_sorted_perm x r) in Hz.
      apply elem_of_cons in Hz. destruct Hz as [-> | Hz]; [exact Hyx |].
      rewrite Forall_forall in Hall. apply Hall. exact Hz.
Qed.

Lemma stable_sort_sorted (l : list A) :
  StronglySorted (fun a b => le a b = true) (stable_sort le l).
Proof.
  induction l as [| x l IH]; simpl; [constructor |].
  apply insert_sorted_sorted. exact IH.
Qed.

(** Stability: the elements of a class whose members all compare equal
    come out in their input order. *)
Lemma insert_sorted_filter (P : A -> Prop) `{forall x, Decision (P x)}
    (x : A) (l : list A) :
  (forall y, P x -> P y -> le x y = true) ->
  filter P (insert_sorted le x l)
  = if decide (P x) then x :: filter P l else filter P l.
Proof.
  intros Hclass. induction l as [| y r IH]; simpl.
  - rewrite filter_cons, filter_nil. reflexivity.
  - destruct (le x y) eqn:Hxy.
    + rewrite filter_cons. reflexivity.
    + rewrite !(filter_cons _ y), IH.
      destruct (decide (P y)) as [Hy | Hy]; [| reflexivity].
      destruct (decide (P x)) as [Hx | Hx]; [| reflexivity].
      specialize (Hclass y Hx Hy). congruence.
Qed.

Lemma stable_sort_filter (P : A -> Prop) `{forall x, Decision (P x)}
    (l : list A) :
  (forall x y, P x -> P y -> le x y = true) ->
  filter P (stable_sort le l) = filter P l.
Proof.
  intros Hclass. induction l as [| x l IH]; simpl; [reflexivity |].
  rewrite insert_sorted_filter by (intros; apply Hclass; assumption).
  rewrite filter_cons, IH. reflexivity.
Qed.
End StableSortFacts.

(** ** C3: the recommended playlist *)

Lemma Counter_snoc (l : list string) (a : string) :
  Counter (l ++ [a]) = counter_add a (Counter l).
Proof. unfold Counter. rewrite fold_left_app. reflexivity. Qed.

Lemma elem_of_first_seen (a : string) (l : list string) :
  a ∈ first_seen l <-> a ∈ l.
Proof.
  induction l as [| x r IH]; simpl; [reflexivity |].
  rewrite !elem_of_cons, list_elem_of_filter, IH.
  destruct (decide (a = x)); tauto.
Qed.

Lemma NoDup_first_seen (l : list string) : NoDup (first_seen l).
Proof.
  induction l as [| x r IH]; simpl; [constructor |].
  constructor; [| apply NoDup_filter; exact IH].
  rewrite list_elem_of_filter. tauto.
Qed.

Lemma first_seen_snoc (l : list string) (a : string) :
  first_seen (l ++ [a])
  = if decide (a ∈ l) then first_seen l else first_seen l ++ [a].
Proof.
  induction l as [| x r IH]; simpl.
  - destruct (decide (a ∈ [])) as [Hin | _]; [| reflexivity].
    apply elem_of_nil in Hin. contradiction.
  - rewrite IH. clear IH.
    destruct (decide (a ∈ r)) as [Hr | Hr];
      destruct (decide (a ∈ x :: r)) as [Hxr | Hxr];
      rewrite elem_of_cons in Hxr; try tauto.
    + rewrite filter_app, filter_cons, filter_nil.
      destruct (decide (a <> x)) as [Hne | _]; [tauto |].
      rewrite app_nil_r. reflexivity.
    + rewrite filter_app, filter_cons, filter_nil.
      destruct (decide (a <> x)) as [_ | Heq]; [reflexivity |].
      exfalso. apply Hxr. left. destruct (decide (a = x)); tauto.
Qed.

Lemma count_of_snoc (b : string) (l : list string) (a : string) :
  count_of b (l ++ [a]) = count_of b l + (if decide (a = b) then 1 else 0).
Proof.
  unfold count_of, len. rewrite filter_app, length_app, filter_cons, filter_nil.
  destruct (decide (a = b)); simpl; lia.
Qed.

Lemma count_of_absent (a : string) (l : list string) :
  a ∉ l -> count_of a l = 0.
Proof.
  intros Habs. unfold count_of, len.
  induction l as [| x r IH]; [reflexivity |].
  rewrite filter_cons. rewrite not_elem_of_cons in Habs.
  destruct (decide (x = a)) as [-> | _]; [tauto |]. apply IH. tauto.
Qed.

Lemma counter_add_frequencies (a : string) (keys : list string) (f : string -> Z) :
  NoDup keys ->
  counter_add a (map (fun b => (b, f b)) keys)
  = map (fun b => (b, f b + (if decide (a = b) then 1 else 0))) keys
    ++ (if decide (a ∈ keys) then [] else [(a, 1)]).
Proof.
  induction 1 as [| k ks Hk Hnd IH]; simpl.
  - destruct (decide (a ∈ [])) as [Hin | _]; [| reflexivity].
    apply elem_of_nil in Hin. contradiction.
  - destruct (decide (a = k)) as [-> | Hne].
    + destruct (decide (k ∈ k :: ks)) as [_ | Hn]; [| exfalso; apply Hn; left].
      rewrite app_nil_r. f_equal. apply map_ext_in. intros b Hb.
      apply list_elem_of_In in Hb.
      destruct (decide (k = b)) as [-> | _]; [contradiction |].
      rewrite Z.add_0_r. reflexivity.
    + rewrite IH, Z.add_0_r. simpl. f_equal. f_equal.
      destruct (decide (a ∈ ks)) as [Hin | Hin];
        destruct (decide (a ∈ k :: ks)) as [Hin' | Hin'];
        rewrite elem_of_cons in Hin'; tauto.
Qed.

(** [Counter] holds every distinct element once, in first-seen order,
    with its number of occurrences. *)
Lemma Counter_frequencies (l : list string) :
  Counter l = map (fun a => (a, count_of a l)) (first_seen l).
Proof.
  induction l as [| a l IH] using rev_ind; [reflexivity |].
  rewrite Counter_snoc, IH.
  rewrite counter_add_frequencies by apply NoDup_first_seen.
  rewrite first_seen_snoc.
  destruct (decide (a ∈ first_seen l)) as [Hin | Hin];
    destruct (decide (a ∈ l)) as [Hin' | Hin'];
    rewrite elem_of_first_seen in Hin; try tauto.
  - rewrite app_nil_r. apply map_ext. intros b.
    rewrite count_of_snoc. reflexivity.
  - rewrite map_app. simpl. rewrite count_of_snoc.
    rewrite (count_of_absent a l Hin').
    destruct (decide (a = a)) as [_ | Hne]; [| contradiction].
    f_equal. apply map_ext. intros b. rewrite count_of_snoc. reflexivity.
Qed.

Lemma flat_map_fst {B} (f : string -> list B) (l : list (string * Z)) :
  flat_map (fun '(a, _) => f a) l = flat_map f (map fst l).
Proof.
  induction l as [| [a n] l IH]; simpl; [reflexivity |]. rewrite IH. reflexivity.
Qed.

Lemma filter_artist_split (a : string) (top : list string) (catalog : list Track) :
  a ∉ top ->
  filter (fun t => artist t ∈ a :: top) catalog
  ≡ₚ filter (fun t => artist t = a) catalog
     ++ filter (fun t => artist t ∈ top) catalog.
Proof.
  intros Ha. induction catalog as [| t c IH]; [reflexivity |].
  rewrite !(filter_cons _ t).
  destruct (decide (artist t = a)) as [Heq | Hne].
  - destruct (decide (artist t ∈ a :: top)) as [_ | Hn];
      [| exfalso; apply Hn; rewrite Heq; left].
    destruct (decide (artist t ∈ top)) as [Hin | _]; [congruence |].
    simpl. rewrite IH. reflexivity.
  - destruct (decide (artist t ∈ top)) as [Hin | Hin].
    + destruct (decide (artist t ∈ a :: top)) as [_ | Hn];
        [| exfalso; apply Hn; right; exact Hin].
      rewrite IH. apply Permutation_middle.
    + destruct (decide (artist t ∈ a :: top)) as [Hin' | _]; [| exact IH].
      rewrite elem_of_cons in Hin'. tauto.
Qed.

Lemma flat_map_by_artist_perm (top : list string) (catalog : list Track) :
  NoDup top ->
  flat_map (fun a => filter (fun t => artist t = a) catalog) top
  ≡ₚ recommend_spec top catalog.
Proof.
  unfold recommend_spec. induction 1 as [| a top Ha Hnd IH]; simpl.
  - induction catalog as [| t c IHc]; [reflexivity |].
    rewrite filter_cons. destruct (decide (artist t ∈ [])) as [Hin | _]; [| exact IHc].
    apply elem_of_nil in Hin. contradiction.
  - rewrite IH. symmetry. apply filter_artist_split. exact Ha.
Qed.

Lemma StronglySorted_weaken {A} (R R' : A -> A -> Prop) (l : list A) :
  (forall x y, R x y -> R' x y) -> StronglySorted R l -> StronglySorted R' l.
Proof.
  intros HR. induction 1 as [| x l Hs IH Hall]; constructor; [exact IH |].
  eapply Forall_impl; [exact Hall |]. intros y. apply HR.
Qed.

Lemma most_common_ranking (n : nat) (c : list (string * Z)) :
  exists ranking,
    most_common n c = take n ranking
    /\ ranking ≡ₚ c
    /\ StronglySorted (fun x y => snd y <= snd x) ranking
    /\ (forall k, filter (fun x => snd x = k) ranking
                  = filter (fun x => snd x = k) c).
Proof.
  exists (stable_sort (fun x y => snd y <=? snd x) c).
  split; [reflexivity |]. split; [apply stable_sort_perm |]. split.
  - eapply StronglySorted_weaken; [| apply stable_sort_sorted].
    + intros x y Hxy. apply Z.leb_le. exact Hxy.
    + intros x y. destruct (Z.leb_spec (snd y) (snd x)); [left; reflexivity |].
      right. apply Z.leb_le. lia.
    + intros x y z Hxy Hyz. apply Z.leb_le in Hxy, Hyz. apply Z.leb_le. lia.
  - intros k. apply stable_sort_filter. intros x y Hx Hy.
    apply Z.leb_le. lia.
Qed.

Lemma map_fst_artist_frequencies (data : list hist_entry) :
  map fst (artist_frequencies data) = first_seen (history_artists data).
Proof.
  unfold artist_frequencies. rewrite map_map. simpl. apply map_id.
Qed.

(** C3, as amended.  The recommender counts, per artist, the history
    entries that carry a non-empty artist, ranks the artists by decreasing
    count with equal counts in first-encountered order, and takes the
    first three.  The playlist holds exactly the catalog tracks of those
    three artists, grouped by artist in rank order and in catalog order
    within an artist.  A history without artists gives the empty playlist;
    a missing history file adds no playlist. *)
Theorem recommended_by_artist_rank (data : list hist_entry)
    (catalog : list Track) (pp : PlaylistsPane.t) :
  exists ranking : list (string * Z),
    ranking ≡ₚ artist_frequencies data
    /\ StronglySorted (fun x y => snd y <= snd x) ranking
    /\ (forall k, filter (fun x => snd x = k) ranking
                  = filter (fun x => snd x = k) (artist_frequencies data))
    /\ (let top := map fst (take 3 ranking) in
        PlaylistsPane.recommended_tracks data catalog
        = flat_map (fun a => filter (fun t => artist t = a) catalog) top
        /\ PlaylistsPane.recommended_tracks data catalog
           ≡ₚ recommend_spec top catalog)
    /\ PlaylistsPane._pls
         (PlaylistsPane._make_recommended (Some data) catalog pp)
         !! "🔥 Recommended"%string
       = Some (PlaylistsPane.recommended_tracks data catalog)
    /\ (history_artists data = [] ->
        PlaylistsPane.recommended_tracks data catalog = [])
    /\ PlaylistsPane._make_recommended None catalog pp = pp.
Proof.
  destruct (most_common_ranking 3 (Counter (history_artists data)))
    as (ranking & Htop & Hperm & Hsorted & Hstable).
  rewrite Counter_frequencies in Hperm, Hstable.
  fold (artist_frequencies data) in Hperm, Hstable.
  exists ranking. split; [exact Hperm |]. split; [exact Hsorted |].
  split; [exact Hstable |].
  assert (Hrec : PlaylistsPane.recommended_tracks data catalog
                 = flat_map (fun a => filter (fun t => artist t = a) catalog)
                            (map fst (take 3 ranking))).
  { unfold PlaylistsPane.recommended_tracks. rewrite Htop.
    apply (flat_map_fst (fun a => filter (fun t => artist t = a) catalog)). }
  split; [| split; [| split]].
  - split; [exact Hrec |]. rewrite Hrec. apply flat_map_by_artist_perm.
    change (NoDup (fst <$> take 3 ranking)). rewrite fmap_take.
    eapply sublist_NoDup; [| apply sublist_take].
    rewrite Hperm. change (NoDup (map fst (artist_frequencies data))).
    rewrite map_fst_artist_frequencies. apply NoDup_first_seen.
  - unfold PlaylistsPane._make_recommended, PlaylistsPane.add_playlist. simpl.
    apply lookup_insert_eq.
  - intros Hnone. unfold PlaylistsPane.recommended_tracks.
    rewrite Hnone. reflexivity.
  - reflexivity.
Qed.

Lemma recommended_by_artist_rank_witness :
  history_artists history_without_artist = []
  /\ PlaylistsPane.recommended_tracks history_without_artist catalog_b_then_a = [].
Proof.
  destruct (recommended_by_artist_rank history_without_artist catalog_b_then_a
              PlaylistsPane.init) as (r & _ & _ & _ & _ & _ & Hempty & _).
  split; [reflexivity |]. apply Hempty. reflexivity.
Defined.

(** C3 as stated fails on the order: the catalog lists the track of B
    first, the playlist lists the track of the top artist A first. *)
Lemma recommended_order_counterexample :
  map fst (most_common 3 (Counter (history_artists history_aab)))
  = ["A"; "B"]%string
  /\ PlaylistsPane.recommended_tracks history_aab catalog_b_then_a
     = [by_artist "/m/2.mp3" "A"; by_artist "/m/1.mp3" "B"]
  /\ recommend_spec ["A"; "B"]%string catalog_b_then_a
     = [by_artist "/m/1.mp3" "B"; by_artist "/m/2.mp3" "A"]
  /\ PlaylistsPane.recommended_tracks history_aab catalog_b_then_a
     <> recommend_spec ["A"; "B"]%string catalog_b_then_a.
Proof.
  split; [vm_compute; reflexivity |].
  split; [vm_compute; reflexivity |].
  split; [vm_compute; reflexivity |].
  vm_compute. discriminate.
Qed.

(** The ranking example of the spec: artists A,A,B,A,C,C,B. *)
Example most_common_tie_break :
  most_common 3 (Counter ["A"; "A"; "B"; "A"; "C"; "C"; "B"]%string)
  = [("A", 3); ("B", 2); ("C", 2)]%string.
Proof. vm_compute. reflexivity. Qed.

(** ** C8: parsing timed lyrics *)

(** *** Texts and tables *)

Lemma string_app_cons (x : ascii) (a b : string) :
  (String x a ++ b = String x (a ++ b))%string.
Proof. reflexivity. Qed.

Lemma string_app_nil_l (b : string) : (EmptyString ++ b = b)%string.
Proof. reflexivity. Qed.

Lemma string_app_assoc (a b c : string) : ((a ++ b) ++ c = a ++ (b ++ c))%string.
Proof.
  induction a as [| x a IH]; [reflexivity |].
  rewrite !string_app_cons, IH. reflexivity.
Qed.

Lemma string_app_nil_r (a : string) : (a ++ EmptyString = a)%string.
Proof.
  induction a as [| x a IH]; [reflexivity |].
  rewrite string_app_cons, IH. reflexivity.
Qed.

Lemma string_length_app (a b : string) :
  String.length (a ++ b) = (String.length a + String.length b)%nat.
Proof.
  induction a as [| x a IH]; [reflexivity |].
  rewrite string_app_cons. simpl. rewrite IH. reflexivity.
Qed.

Lemma string_app_inv_head (a b c : string) : (a ++ b = a ++ c)%string -> b = c.
Proof.
  induction a as [| x a IH]; [auto |].
  rewrite !string_app_cons. intros [= H]. auto.
Qed.

Lemma prefix_true (w s : string) :
  String.prefix w s = true <-> exists r, s = (w ++ r)%string.
Proof.
  revert s. induction w as [| a w IH]; intros s.
  - destruct s; simpl; split; eauto.
  - destruct s as [| b s]; simpl.
    + split; [discriminate | intros [r Hr]; discriminate].
    + destruct (Ascii.ascii_dec a b) as [-> | Hne].
      * rewrite IH. split; intros [r Hr]; exists r.
        -- rewrite string_app_cons. congruence.
        -- rewrite string_app_cons in Hr. congruence.
      * split; [discriminate | intros [r Hr]].
        rewrite string_app_cons in Hr. congruence.
Qed.

(** Two texts that the same text starts with: one starts with the other. *)
Lemma prefix_comparable (a b x y : string) :
  (a ++ x = b ++ y)%string ->
  String.prefix a b = true \/ String.prefix b a = true.
Proof.
  revert b. induction a as [| c a IH]; intros b H.
  - left. destruct b; reflexivity.
  - destruct b as [| d b]; [right; reflexivity |].
    rewrite !string_app_cons in H. injection H as -> H. destruct (IH b H) as [Hp | Hp].
    + left. simpl. destruct (Ascii.ascii_dec d d); [exact Hp | congruence].
    + right. simpl. destruct (Ascii.ascii_dec d d); [exact Hp | congruence].
Qed.

Lemma sdrop_app (w r : string) : sdrop (String.length w) (w ++ r) = r.
Proof.
  induction w as [| c w IH]; [destruct r; reflexivity |].
  rewrite string_app_cons. simpl. exact IH.
Qed.

Lemma starts_with_Some (table : list string) (s w : string) :
  starts_with table s = Some w -> w ∈ table /\ exists r, s = (w ++ r)%string.
Proof.
  unfold starts_with. intros H. apply find_some in H as [Hin Hp].
  split; [apply list_elem_of_In; exact Hin | apply prefix_true; exact Hp].
Qed.

Lemma starts_with_None (table : list string) (s : string) :
  starts_with table s = None ->
  forall w r, w ∈ table -> s <> (w ++ r)%string.
Proof.
  unfold starts_with. intros H w r Hin Hs.
  apply list_elem_of_In in Hin.
  pose proof (find_none _ _ H w Hin) as Hp. simpl in Hp.
  assert (String.prefix w s = true) by (apply prefix_true; eauto). congruence.
Qed.

Lemma starts_with_app (table : list string) (w r : string) :
  prefix_free table -> w ∈ table -> starts_with table (w ++ r) = Some w.
Proof.
  intros Hfree Hin. destruct (starts_with table (w ++ r)) as [w' |] eqn:Hfind.
  - apply starts_with_Some in Hfind as [Hin' [r' Hr']].
    unfold prefix_free in Hfree. rewrite Forall_forall in Hfree.
    destruct (prefix_comparable w w' r r' Hr') as [Hp | Hp].
    + pose proof (Hfree w Hin) as Hw. rewrite Forall_forall in Hw.
      rewrite (Hw w' Hin' Hp). reflexivity.
    + pose proof (Hfree w' Hin') as Hw. rewrite Forall_forall in Hw.
      rewrite (Hw w Hin Hp). reflexivity.
  - exfalso. exact (starts_with_None _ _ Hfind w r Hin eq_refl).
Qed.

Lemma boundaries_prefix_free : prefix_free (utf8 <$> line_boundaries).
Proof. apply (bool_decide_unpack _). vm_compute. exact I. Qed.

Lemma whitespace_prefix_free : prefix_free (utf8 <$> whitespace).
Proof. apply (bool_decide_unpack _). vm_compute. exact I. Qed.

Lemma boundaries_nonempty : Forall (fun w => w <> EmptyString) (utf8 <$> line_boundaries).
Proof. apply (bool_decide_unpack _). vm_compute. exact I. Qed.

Lemma whitespace_nonempty : Forall (fun w => w <> EmptyString) (utf8 <$> whitespace).
Proof. apply (bool_decide_unpack _). vm_compute. exact I. Qed.

(** *** Lines *)

Lemma boundary_len_pos (s : string) (n : nat) :
  boundary_len s = S n ->
  exists e rest, s = (e ++ rest)%string /\ is_boundary e
    /\ String.length e = S n
    /\ (e = utf8 13 -> String.prefix (utf8 10) rest = false).
Proof.
  unfold boundary_len.
  destruct (String.prefix (utf8 13 ++ utf8 10) s) eqn:Hcrlf.
  - intros [= <-]. apply prefix_true in Hcrlf as [rest ->].
    exists (utf8 13 ++ utf8 10)%string, rest.
    split; [reflexivity |]. split; [left; reflexivity |].
    split; [reflexivity |]. intros H. discriminate H.
  - destruct (starts_with (utf8 <$> line_boundaries) s) as [w |] eqn:Hw;
      [| discriminate].
    intros Hlen. apply starts_with_Some in Hw as [Hin [rest ->]].
    exists w, rest. split; [reflexivity |]. split; [right; exact Hin |].
    split; [exact Hlen |]. intros ->.
    destruct (String.prefix (utf8 10) rest) eqn:Hlf; [| reflexivity].
    apply prefix_true in Hlf as [r' ->].
    assert (Ht : String.prefix (utf8 13 ++ utf8 10) (utf8 13 ++ utf8 10 ++ r')
                 = true).
    { apply prefix_true. exists r'. rewrite string_app_assoc. reflexivity. }
    congruence.
Qed.

Lemma boundary_len_zero (s : string) :
  boundary_len s = 0%nat ->
  forall e r, e ∈ utf8 <$> line_boundaries -> s <> (e ++ r)%string.
Proof.
  unfold boundary_len.
  destruct (String.prefix (utf8 13 ++ utf8 10) s); [discriminate |].
  destruct (starts_with (utf8 <$> line_boundaries) s) as [w |] eqn:Hw.
  - intros Hlen. apply starts_with_Some in Hw as [Hin _].
    pose proof boundaries_nonempty as Hne. rewrite Forall_forall in Hne.
    destruct w; [exfalso; exact (Hne _ Hin eq_refl) | discriminate].
  - intros _. apply starts_with_None. exact Hw.
Qed.

Lemma splitlines_from_skip (w rest : string) :
  splitlines_from (String.length w) (w ++ rest) = splitlines_from 0 rest.
Proof.
  induction w as [| c w IH]; [reflexivity |].
  rewrite string_app_cons. simpl. exact IH.
Qed.

Lemma occurs_in_cons (table : list string) (c : ascii) (l : string) :
  occurs_in table (String c l) ->
  (exists e b, String c l = (e ++ b)%string /\ e ∈ table) \/ occurs_in table l.
Proof.
  intros (a & e & b & Heq & Hin). destruct a as [| c' a].
  - left. exists e, b. split; [exact Heq | exact Hin].
  - right. rewrite string_app_cons in Heq. injection Heq as _ ->.
    exists a, e, b. split; [reflexivity | exact Hin].
Qed.

Lemma break_free_cons (c : ascii) (l y : string) :
  (forall e r, e ∈ utf8 <$> line_boundaries -> String c (l ++ y) <> (e ++ r)%string) ->
  break_free l -> break_free (String c l).
Proof.
  intros Hhead Hl Hocc. apply occurs_in_cons in Hocc as [(e & b & Heq & Hin) | Hocc].
  - apply (Hhead e (b ++ y)%string Hin).
    rewrite <- string_app_assoc, <- Heq. reflexivity.
  - exact (Hl Hocc).
Qed.

Lemma break_free_empty : break_free EmptyString.
Proof.
  intros (a & e & b & Heq & Hin).
  pose proof boundaries_nonempty as Hne. rewrite Forall_forall in Hne.
  destruct a; [| discriminate]. destruct e; [exact (Hne _ Hin eq_refl) | discriminate].
Qed.

Lemma splitlines_lines_upto (n : nat) (s : string) :
  (String.length s <= n)%nat -> lines_of s (splitlines s).
Proof.
  revert s. induction n as [| n IH]; intros s Hn.
  - destruct s; [constructor | simpl in Hn; lia].
  - destruct s as [| c r]; [constructor |].
    unfold splitlines. simpl splitlines_from.
    destruct (boundary_len (String c r)) as [| k] eqn:Hb.
    + assert (Hr : lines_of r (splitlines r)) by (apply IH; simpl in Hn; lia).
      pose proof (boundary_len_zero _ Hb) as Hhead.
      unfold splitlines in Hr.
      destruct (splitlines_from 0 r) as [| l ls] eqn:Hsplit.
      * inversion Hr; subst. apply lines_last; [discriminate |].
        apply (break_free_cons c EmptyString EmptyString);
          [exact Hhead | exact break_free_empty].
      * inversion Hr; subst.
        -- apply lines_last; [discriminate |].
           apply (break_free_cons c l EmptyString); [| assumption].
           rewrite string_app_nil_r. exact Hhead.
        -- change (String c (l ++ e ++ rest))
             with (String c l ++ e ++ rest)%string.
           apply lines_cons; try assumption.
           apply (break_free_cons c l (e ++ rest)%string); assumption.
    + apply boundary_len_pos in Hb as (e & rest & Heq & He & Hlen & Hcr).
      destruct e as [| c' e']; [discriminate |].
      rewrite string_app_cons in Heq. injection Heq as -> ->.
      simpl in Hlen. injection Hlen as <-.
      rewrite splitlines_from_skip.
      change (String c' (e' ++ rest))
        with (EmptyString ++ String c' e' ++ rest)%string.
      apply lines_cons; [exact break_free_empty | exact He | exact Hcr |].
      apply IH. simpl in Hn. rewrite string_length_app in Hn. lia.
Qed.

Lemma splitlines_lines (s : string) : lines_of s (splitlines s).
Proof. apply (splitlines_lines_upto (String.length s)). lia. Qed.

(** *** Whitespace *)

Lemma space_len_pos (s : string) (n : nat) :
  space_len s = S n ->
  exists w rest, s = (w ++ rest)%string /\ w ∈ utf8 <$> whitespace
    /\ String.length w = S n.
Proof.
  unfold space_len.
  destruct (starts_with (utf8 <$> whitespace) s) as [w |] eqn:Hw; [| discriminate].
  intros Hlen. apply starts_with_Some in Hw as [Hin [rest ->]].
  exists w, rest. auto.
Qed.

Lemma space_len_zero (s : string) : space_len s = 0%nat -> ~ starts_blank s.
Proof.
  unfold space_len.
  destruct (starts_with (utf8 <$> whitespace) s) as [w |] eqn:Hw.
  - intros Hlen. apply starts_with_Some in Hw as [Hin _].
    pose proof whitespace_nonempty as Hne. rewrite Forall_forall in Hne.
    destruct w; [exfalso; exact (Hne _ Hin eq_refl) | discriminate].
  - intros _ (w & r & Hin & Hs). exact (starts_with_None _ _ Hw w r Hin Hs).
Qed.

Lemma space_len_app (w r : string) :
  w ∈ utf8 <$> whitespace -> space_len (w ++ r) = String.length w.
Proof.
  intros Hin. unfold space_len.
  rewrite (starts_with_app _ w r whitespace_prefix_free Hin). reflexivity.
Qed.

Lemma lstrip_from_skip (w rest : string) :
  lstrip_from (String.length w) (w ++ rest) = lstrip_from 0 rest.
Proof.
  induction w as [| c w IH]; [reflexivity |].
  rewrite string_app_cons. simpl. exact IH.
Qed.

Lemma lstrip_app (w r : string) :
  w ∈ utf8 <$> whitespace -> lstrip (w ++ r) = lstrip r.
Proof.
  intros Hin. pose proof (space_len_app w r Hin) as Hlen.
  pose proof whitespace_nonempty as Hne. rewrite Forall_forall in Hne.
  destruct w as [| c w]; [exfalso; exact (Hne _ Hin eq_refl) |].
  unfold lstrip. rewrite string_app_cons in *. simpl lstrip_from.
  rewrite Hlen. simpl. apply lstrip_from_skip.
Qed.

Lemma lstrip_spec_upto (n : nat) (s : string) :
  (String.length s <= n)%nat ->
  exists a, s = (a ++ lstrip s)%string /\ blank a /\ ~ starts_blank (lstrip s).
Proof.
  revert s. induction n as [| n IH]; intros s Hn.
  - destruct s; [| simpl in Hn; lia].
    exists EmptyString. split; [reflexivity |]. split; [constructor |].
    intros (w & r & Hin & Hs).
    pose proof whitespace_nonempty as Hne. rewrite Forall_forall in Hne.
    destruct w; [exact (Hne _ Hin eq_refl) | discriminate].
  - destruct (space_len s) as [| k] eqn:Hlen.
    + exists EmptyString.
      assert (Hid : lstrip s = s).
      { unfold lstrip. destruct s; [reflexivity |]. simpl. rewrite Hlen. reflexivity. }
      rewrite Hid. split; [reflexivity |]. split; [constructor |].
      apply space_len_zero. exact Hlen.
    + apply space_len_pos in Hlen as (w & rest & -> & Hin & Hlen).
      rewrite (lstrip_app w rest Hin).
      destruct (IH rest) as (a & Ha & Hblank & Hstart).
      { rewrite string_length_app in Hn. lia. }
      exists (w ++ a)%string. split; [| split; [| exact Hstart]].
      * rewrite string_app_assoc, <- Ha. reflexivity.
      * constructor; assumption.
Qed.

Lemma lstrip_spec (s : string) :
  exists a, s = (a ++ lstrip s)%string /\ blank a /\ ~ starts_blank (lstrip s).
Proof. apply (lstrip_spec_upto (String.length s)). lia. Qed.

Lemma blank_lstrip (b : string) : blank b -> lstrip b = EmptyString.
Proof.
  induction 1 as [| w s Hin _ IH]; [reflexivity |].
  rewrite (lstrip_app w s Hin). exact IH.
Qed.

Lemma lstrip_empty_blank (b : string) : lstrip b = EmptyString -> blank b.
Proof.
  intros Hb. destruct (lstrip_spec b) as (a & Ha & Hblank & _).
  rewrite Hb, string_app_nil_r in Ha. subst a. exact Hblank.
Qed.

Lemma rstrip_spec (x : string) :
  exists b, x = (rstrip x ++ b)%string /\ lstrip b = EmptyString
    /\ forall q y, rstrip x = (q ++ y)%string -> y <> EmptyString ->
                   lstrip (y ++ b) <> EmptyString.
Proof.
  induction x as [| c r IH].
  - exists EmptyString. split; [reflexivity |]. split; [reflexivity |].
    intros q y Hq Hy. destruct q; [| discriminate].
    simpl in Hq. rewrite string_app_nil_l in Hq. congruence.
  - simpl rstrip. destruct (lstrip (String c r)) as [| c0 s0] eqn:Hl.
    + exists (String c r). split; [reflexivity |]. split; [exact Hl |].
      intros q y Hq Hy. destruct q; [| discriminate].
      rewrite string_app_nil_l in Hq. congruence.
    + destruct IH as (b & Hx & Hb & Hmin). exists b.
      split; [rewrite string_app_cons, <- Hx; reflexivity |].
      split; [exact Hb |]. intros q y Hq Hy. destruct q as [| c' q].
      * rewrite string_app_nil_l in Hq. subst y.
        rewrite string_app_cons, <- Hx, Hl. discriminate.
      * rewrite string_app_cons in Hq. injection Hq as _ Hq.
        exact (Hmin q y Hq Hy).
Qed.

Lemma strip_stripped (s : string) : stripped_of s (strip s).
Proof.
  unfold strip. destruct (lstrip_spec s) as (a & Ha & Hblank & Hstart).
  destruct (rstrip_spec (lstrip s)) as (b & Hx & Hb & Hmin).
  exists a, b. split; [rewrite <- Hx; exact Ha |]. split; [exact Hblank |].
  split; [apply lstrip_empty_blank; exact Hb |]. split.
  - intros (w & r & Hin & Hs). apply Hstart. exists w, (r ++ b)%string.
    split; [exact Hin |]. rewrite Hx at 1. rewrite Hs, string_app_assoc. reflexivity.
  - intros (q & w & Hin & Hs).
    pose proof whitespace_nonempty as Hne. rewrite Forall_forall in Hne.
    apply (Hmin q w Hs (Hne _ Hin)). rewrite (lstrip_app w b Hin). exact Hb.
Qed.

(** *** Float timestamps *)

Lemma all_below_spec (n : nat) (p : Z -> bool) :
  all_below n p = true -> forall k, 0 <= k < Z.of_nat n -> p k = true.
Proof.
  induction n as [| n IH]; intros H k Hk; [lia |].
  simpl in H. apply andb_prop in H as [Hn Hrest].
  destruct (Z.eq_dec k (Z.of_nat n)) as [-> | Hne]; [exact Hn |].
  apply IH; [exact Hrest | lia].
Qed.

Lemma seconds_close_sound (b cs : Z) :
  seconds_close b cs = true ->
  (Qabs (Q_of_float (PrimFloat.add (py_float b)
                       (PrimFloat.div (py_float cs) (py_float 100)))
         - (inject_Z b + inject_Z cs / 100))
   <= 1 # 1099511627776)%Q.
Proof.
  unfold seconds_close, Q_of_float.
  destruct (FloatOps.Prim2SF _) as [s | s | | s m e]; try discriminate.
  - intros H. apply andb_prop in H as [Hb Hc].
    apply Z.eqb_eq in Hb, Hc. subst. vm_compute. discriminate.
  - destruct s; [discriminate |]. intros H.
    apply andb_prop in H as [H Hclose]. apply andb_prop in H as [Hle Hge].
    apply Z.leb_le in Hle, Hge, Hclose.
    rewrite !Z.shiftl_mul_pow2 in Hclose by lia.
    set (k := - e). assert (Hk : 0 <= k <= 60) by (subst k; lia).
    replace (60 + e) with (60 - k) in Hclose by (subst k; lia).
    assert (HA : 0 < 2 ^ k) by (apply Z.pow_pos_nonneg; lia).
    assert (HB : 0 < 2 ^ (60 - k)) by (apply Z.pow_pos_nonneg; lia).
    assert (HAB : 2 ^ k * 2 ^ (60 - k) = 2 ^ 60).
    { rewrite <- Z.pow_add_r by lia. f_equal. lia. }
    assert (Ht : ((if 0 <=? e then inject_Z (Z.pos m * 2 ^ e)
                   else Z.pos m # Z.to_pos (2 ^ k))
                  == Z.pos m # Z.to_pos (2 ^ k))%Q).
    { destruct (Z.leb_spec 0 e) as [H0 | H0]; [| reflexivity].
      assert (e = 0) by lia. subst e. subst k.
      change (2 ^ 0) with 1. change (2 ^ (- 0)) with 1.
      unfold Qeq, inject_Z. cbn [Qnum Qden Z.to_pos]. lia. }
    rewrite Ht.
    assert (Hx : (inject_Z b + inject_Z cs / 100 == (100 * b + cs) # 100)%Q).
    { cbv [Qeq Qplus Qdiv Qmult Qinv inject_Z Qnum Qden].
      change (Z.pos (1 * 100)) with 100. change (Z.pos 100) with 100. lia. }
    rewrite Hx. apply Qabs_Qle_condition.
    unfold Qle, Qminus, Qplus, Qopp. cbn [Qnum Qden].
    rewrite !Pos2Z.inj_mul, !Z2Pos.id by lia.
    set (A := 2 ^ k) in *. set (B := 2 ^ (60 - k)) in *.
    set (M := Z.pos m) in *. set (N := 100 * b + cs) in *.
    change (2 ^ 60) with 1152921504606846976 in *.
    apply Z.abs_le in Hclose.
    split.
    + apply (Z.mul_le_mono_pos_r _ _ B HB). nia.
    + apply (Z.mul_le_mono_pos_r _ _ B HB). nia.
Qed.

Lemma seconds_whole_sound (b : Z) :
  seconds_whole b = true ->
  (Q_of_float (PrimFloat.add (py_float b)
                 (PrimFloat.div (py_float 0) (py_float 100)))
   == inject_Z b)%Q.
Proof.
  unfold seconds_whole, Q_of_float.
  destruct (FloatOps.Prim2SF _) as [s | s | | s m e]; try discriminate.
  - intros Hb. apply Z.eqb_eq in Hb. subst b. reflexivity.
  - destruct s; [discriminate |]. intros H.
    apply andb_prop in H as [Hle Hm]. apply Z.leb_le in Hle.
    apply Z.eqb_eq in Hm. rewrite Z.shiftl_mul_pow2 in Hm by lia.
    assert (HA : 0 < 2 ^ (- e)) by (apply Z.pow_pos_nonneg; lia).
    destruct (Z.leb_spec 0 e) as [H0 | H0].
    + assert (e = 0) by lia. subst e. change (2 ^ (- 0)) with 1 in Hm.
      change (2 ^ 0) with 1. unfold Qeq, inject_Z. cbn [Qnum Qden]. lia.
    + unfold Qeq, inject_Z. cbn [Qnum Qden]. rewrite Z2Pos.id by lia. lia.
Qed.

(** Checked by evaluation on every number of whole seconds up to
    99*60+99. *)
Lemma seconds_whole_all : all_below (Z.to_nat 6040) seconds_whole = true.
Proof. vm_compute. reflexivity. Qed.

(** A tag without a fraction is at exactly the seconds it writes. *)
Lemma seconds_whole_exact (mm ss : Z) :
  0 <= mm <= 99 -> 0 <= ss <= 99 ->
  (LRC.seconds mm ss 0 == exact_seconds mm ss 0)%Q.
Proof.
  intros Hmm Hss. unfold LRC.seconds, exact_seconds.
  rewrite seconds_whole_sound.
  - unfold Qeq, Qplus, Qdiv, Qmult, Qinv, inject_Z. cbn [Qnum Qden]. lia.
  - apply (all_below_spec _ _ seconds_whole_all). lia.
Qed.

(** Checked by evaluation on every tag of the first minute: whole
    seconds up to 99 and hundredths up to 99. *)
Lemma seconds_close_all :
  all_below (Z.to_nat 100)
    (fun b => all_below (Z.to_nat 100) (seconds_close b))
  = true.
Proof. vm_compute. reflexivity. Qed.

(** A tag of the first minute is at a float within 2^-40 of the seconds
    it writes. *)
Lemma seconds_near (ss cs : Z) :
  0 <= ss <= 99 -> 0 <= cs <= 99 ->
  (Qabs (LRC.seconds 0 ss cs - exact_seconds 0 ss cs)
   <= 1 # 1099511627776)%Q.
Proof.
  intros Hss Hcs. unfold LRC.seconds, exact_seconds.
  apply seconds_close_sound.
  pose proof (all_below_spec _ _ seconds_close_all (0 * 60 + ss)) as Hb.
  cbv beta in Hb.
  apply (all_below_spec _ _ (Hb ltac:(lia)) cs). lia.
Qed.

(** *** Tags *)

Section TagFacts.
Variable digits : list (string * Z).
Hypothesis Hwf : wf_digits digits.

Ltac norm_app :=
  repeat first [rewrite string_app_assoc | rewrite string_app_cons
               | rewrite string_app_nil_l].

Ltac norm_length :=
  repeat first [rewrite string_length_app | progress cbn [String.length]].

Lemma digit_at_sound (s d : string) (v : Z) :
  digit_at digits s = Some (v, d) ->
  digit_text digits d v /\ exists r, s = (d ++ r)%string.
Proof.
  unfold digit_at. destruct s as [| c s]; [discriminate |].
  destruct (Nat.ltb_spec (nat_of_ascii c) 128) as [Hlt | Hge].
  - destruct (Nat.leb_spec 48 (nat_of_ascii c)) as [Hlo | ?]; [| discriminate].
    destruct (Nat.leb_spec (nat_of_ascii c) 57) as [Hhi | ?]; [| discriminate].
    simpl. intros [= <- <-]. split; [| exists s; reflexivity].
    replace (String c EmptyString)
      with (String (byte (48 + (Z.of_nat (nat_of_ascii c) - 48))) EmptyString).
    + constructor. lia.
    + f_equal. unfold byte.
      replace (48 + (Z.of_nat (nat_of_ascii c) - 48)) with (Z.of_nat (nat_of_ascii c))
        by lia.
      rewrite Nat2Z.id. apply ascii_nat_embedding.
  - destruct (find _ digits) as [[w v'] |] eqn:Hfind; [| discriminate].
    intros [= <- <-]. apply find_some in Hfind as [Hin Hp]. cbn [fst] in Hp.
    split; [apply digit_wide, list_elem_of_In; exact Hin |].
    apply prefix_true. exact Hp.
Qed.

Lemma digit_text_first_byte (d : string) (v : Z) :
  digit_text digits d v ->
  exists c d', d = String c d'
    /\ ((nat_of_ascii c < 128)%nat -> d' = EmptyString
        /\ (48 <= nat_of_ascii c <= 57)%nat /\ v = Z.of_nat (nat_of_ascii c) - 48)
    /\ ((128 <= nat_of_ascii c)%nat -> (d, v) ∈ digits).
Proof.
  intros [v' Hv | d' v' Hin].
  - exists (byte (48 + v')), EmptyString. split; [reflexivity |].
    assert (Hn : nat_of_ascii (byte (48 + v')) = Z.to_nat (48 + v')).
    { unfold byte. apply nat_ascii_embedding. lia. }
    rewrite Hn. split; [intros _; split; [reflexivity | lia] | lia].
  - destruct Hwf as [Hbytes _]. rewrite Forall_forall in Hbytes.
    destruct (Hbytes _ Hin) as [Hfirst _]. simpl in Hfirst.
    destruct d' as [| c d'']; [simpl in Hfirst; lia |].
    exists c, d''. split; [reflexivity |]. simpl in Hfirst.
    split; [lia | intros _; exact Hin].
Qed.

Lemma digit_at_complete (d rest : string) (v : Z) :
  digit_text digits d v -> digit_at digits (d ++ rest) = Some (v, d).
Proof.
  intros Hd. destruct (digit_text_first_byte d v Hd) as (c & d' & -> & Hascii & Hwide).
  rewrite string_app_cons. unfold digit_at.
  destruct (Nat.ltb_spec (nat_of_ascii c) 128) as [Hlt | Hge].
  - destruct (Hascii Hlt) as (-> & [Hlo Hhi] & ->).
    destruct (Nat.leb_spec 48 (nat_of_ascii c)); [| lia].
    destruct (Nat.leb_spec (nat_of_ascii c) 57); [| lia]. reflexivity.
  - specialize (Hwide Hge). rewrite <- string_app_cons.
    destruct (find _ digits) as [[w v'] |] eqn:Hfind.
    + apply find_some in Hfind as [Hin' Hp]. cbn [fst] in Hp.
      apply list_elem_of_In in Hin'.
      apply prefix_true in Hp as [r' Hr'].
      destruct Hwf as [_ Hfree]. rewrite Forall_forall in Hfree.
      destruct (prefix_comparable _ _ _ _ Hr') as [Hp | Hp].
      * pose proof (Hfree _ Hwide) as Hw. rewrite Forall_forall in Hw.
        specialize (Hw _ Hin' Hp). injection Hw as <- <-. reflexivity.
      * pose proof (Hfree _ Hin') as Hw. rewrite Forall_forall in Hw.
        specialize (Hw _ Hwide Hp). injection Hw as -> ->. reflexivity.
    + exfalso. apply list_elem_of_In in Hwide.
      pose proof (find_none _ _ Hfind _ Hwide) as Hp. cbn [fst] in Hp.
      assert (String.prefix (String c d') (String c d' ++ rest) = true)
        by (apply prefix_true; eauto).
      congruence.
Qed.

Lemma digit_text_nonempty (d : string) (v : Z) :
  digit_text digits d v -> exists c d', d = String c d'.
Proof.
  intros Hd. destruct (digit_text_first_byte d v Hd) as (c & d' & -> & _).
  eauto.
Qed.

Lemma digits_1_2_sound (s g rest : string) :
  digits_1_2 digits s = Some (g, rest) ->
  exists v, digit_group digits g v /\ s = (g ++ rest)%string.
Proof.
  unfold digits_1_2.
  destruct (digit_at digits s) as [[v1 d1] |] eqn:H1; [| discriminate].
  apply digit_at_sound in H1 as [Hd1 [r1 ->]]. rewrite sdrop_app.
  destruct (digit_at digits r1) as [[v2 d2] |] eqn:H2.
  - apply digit_at_sound in H2 as [Hd2 [r2 ->]]. rewrite sdrop_app.
    intros [= <- <-]. exists (10 * v1 + v2).
    split; [constructor; assumption | rewrite string_app_assoc; reflexivity].
  - intros [= <- <-]. exists v1. split; [constructor; assumption | reflexivity].
Qed.

Lemma digits_1_2_complete (g rest : string) (v : Z) :
  digit_group digits g v -> digit_at digits rest = None ->
  digits_1_2 digits (g ++ rest) = Some (g, rest).
Proof.
  intros [d v' Hd | d1 d2 v1 v2 Hd1 Hd2] Hstop; unfold digits_1_2.
  - rewrite (digit_at_complete d rest v' Hd), sdrop_app, Hstop. reflexivity.
  - rewrite string_app_assoc.
    rewrite (digit_at_complete d1 (d2 ++ rest) v1 Hd1), sdrop_app.
    rewrite (digit_at_complete d2 rest v2 Hd2), sdrop_app. reflexivity.
Qed.

Lemma int_from_skip (w r : string) (acc : Z) :
  int_from digits (String.length w) acc (w ++ r) = int_from digits 0 acc r.
Proof.
  induction w as [| c w IH]; [reflexivity |].
  rewrite string_app_cons. simpl. exact IH.
Qed.

Lemma int_from_digit (d r : string) (v acc : Z) :
  digit_text digits d v ->
  int_from digits 0 acc (d ++ r) = int_from digits 0 (10 * acc + v) r.
Proof.
  intros Hd. pose proof (digit_at_complete d r v Hd) as Hat.
  destruct (digit_text_nonempty d v Hd) as (c & d' & ->).
  rewrite string_app_cons in *. cbn [int_from]. rewrite Hat.
  replace (String.length (String c d') - 1)%nat with (String.length d')
    by (simpl; lia).
  apply int_from_skip.
Qed.

Lemma int_of_group_value (g : string) (v : Z) :
  digit_group digits g v -> int_of_group digits g = v.
Proof.
  unfold int_of_group. intros [d v' Hd | d1 d2 v1 v2 Hd1 Hd2].
  - rewrite <- (string_app_nil_r d), (int_from_digit d _ v' 0 Hd). simpl. lia.
  - rewrite (int_from_digit d1 _ v1 0 Hd1).
    rewrite <- (string_app_nil_r d2), (int_from_digit d2 _ v2 _ Hd2). simpl. lia.
Qed.

Lemma time_pat_match_sound (s : string) (m : time_match) :
  time_pat_match digits s = Some m ->
  exists text rest mm ss cs,
    s = (text ++ rest)%string /\ lrc_tag digits text mm ss cs
    /\ match_len m = String.length text /\ tag_numbers digits m = (mm, ss, cs).
Proof.
  unfold time_pat_match. destruct s as [| c0 r0]; [discriminate |].
  destruct (Ascii.ascii_dec c0 "[") as [-> | Hne].
  2:{ destruct c0 as [[] [] [] [] [] [] [] []]; try discriminate. congruence. }
  destruct (digits_1_2 digits r0) as [[g1 r1] |] eqn:H1; [| discriminate].
  apply digits_1_2_sound in H1 as (mm & Hg1 & ->).
  destruct r1 as [| c1 r1]; [discriminate |].
  destruct (Ascii.ascii_dec c1 ":") as [-> | Hne].
  2:{ destruct c1 as [[] [] [] [] [] [] [] []]; try discriminate. congruence. }
  destruct (digits_1_2 digits r1) as [[g2 r2] |] eqn:H2; [| discriminate].
  apply digits_1_2_sound in H2 as (ss & Hg2 & ->).
  destruct r2 as [| c2 r2]; [discriminate |].
  destruct (Ascii.ascii_dec c2 "]") as [-> | Hne2].
  { intros [= <-].
    exists ("[" ++ g1 ++ ":" ++ g2 ++ "]")%string, r2, mm, ss, 0.
    split; [| split; [constructor; assumption | split]].
    - norm_app. reflexivity.
    - cbn [match_len]. norm_length. lia.
    - unfold tag_numbers. simpl.
      rewrite (int_of_group_value g1 mm Hg1), (int_of_group_value g2 ss Hg2).
      reflexivity. }
  destruct (Ascii.ascii_dec c2 ".") as [-> | Hne3].
  2:{ destruct c2 as [[] [] [] [] [] [] [] []]; try discriminate; congruence. }
  destruct (digits_1_2 digits r2) as [[g3 r3] |] eqn:H3; [| discriminate].
  apply digits_1_2_sound in H3 as (cs & Hg3 & ->).
  destruct r3 as [| c3 r3]; [discriminate |].
  destruct (Ascii.ascii_dec c3 "]") as [-> | Hne4].
  2:{ destruct c3 as [[] [] [] [] [] [] [] []]; try discriminate; congruence. }
  intros [= <-].
  exists ("[" ++ g1 ++ ":" ++ g2 ++ "." ++ g3 ++ "]")%string, r3, mm, ss, cs.
  split; [| split; [constructor; assumption | split]].
  - norm_app. reflexivity.
  - cbn [match_len]. norm_length. lia.
  - unfold tag_numbers. simpl.
    rewrite (int_of_group_value g1 mm Hg1), (int_of_group_value g2 ss Hg2),
      (int_of_group_value g3 cs Hg3).
    reflexivity.
Qed.

Lemma time_pat_match_complete (text rest : string) (mm ss cs : Z) :
  lrc_tag digits text mm ss cs -> time_pat_match digits (text ++ rest) <> None.
Proof.
  intros [g1 g2 mm' ss' Hg1 Hg2 | g1 g2 g3 mm' ss' cs' Hg1 Hg2 Hg3].
  - norm_app. unfold time_pat_match.
    rewrite (digits_1_2_complete g1 _ mm' Hg1) by reflexivity.
    rewrite (digits_1_2_complete g2 _ ss' Hg2) by reflexivity.
    discriminate.
  - norm_app. unfold time_pat_match.
    rewrite (digits_1_2_complete g1 _ mm' Hg1) by reflexivity.
    rewrite (digits_1_2_complete g2 _ ss' Hg2) by reflexivity.
    rewrite (digits_1_2_complete g3 _ cs' Hg3) by reflexivity.
    discriminate.
Qed.

Lemma finditer_from_skip (w rest : string) :
  finditer_from digits (String.length w) (w ++ rest) = finditer_from digits 0 rest.
Proof.
  induction w as [| c w IH]; [reflexivity |].
  rewrite string_app_cons. simpl. exact IH.
Qed.

Lemma sub_empty_from_skip (w rest : string) :
  sub_empty_from digits (String.length w) (w ++ rest)
  = sub_empty_from digits 0 rest.
Proof.
  induction w as [| c w IH]; [reflexivity |].
  rewrite string_app_cons. simpl. exact IH.
Qed.

Lemma lrc_tag_nonempty (text : string) (mm ss cs : Z) :
  lrc_tag digits text mm ss cs -> exists t', text = String "[" t'.
Proof. intros [? ? ? ? _ _ | ? ? ? ? ? ? _ _ _]; eexists; reflexivity. Qed.

Lemma scan_upto (n : nat) (raw : string) :
  (String.length raw <= n)%nat ->
  scan digits raw (map (tag_numbers digits) (finditer digits raw)) (sub_empty digits raw).
Proof.
  revert raw. induction n as [| n IH]; intros raw Hn.
  - destruct raw; [constructor | simpl in Hn; lia].
  - destruct raw as [| c r]; [constructor |].
    unfold finditer, sub_empty. cbn [finditer_from sub_empty_from].
    destruct (time_pat_match digits (String c r)) as [m |] eqn:Hm.
    + apply time_pat_match_sound in Hm
        as (text & rest & mm & ss & cs & Heq & Htag & Hlen & Hnum).
      destruct (lrc_tag_nonempty _ _ _ _ Htag) as [t' ->].
      rewrite string_app_cons in Heq. injection Heq as -> ->.
      rewrite Hlen.
      replace (String.length (String "[" t') - 1)%nat with (String.length t')
        by (simpl; lia).
      rewrite finditer_from_skip, sub_empty_from_skip.
      cbn [map]. rewrite Hnum.
      change (String "[" (t' ++ rest)) with (String "[" t' ++ rest)%string.
      apply scan_tag; [exact Htag |].
      apply IH. simpl in Hn. rewrite string_length_app in Hn. lia.
    + apply scan_char.
      * intros (text & rest & mm & ss & cs & Htag & Heq).
        rewrite Heq in Hm.
        exact (time_pat_match_complete text rest mm ss cs Htag Hm).
      * apply IH. simpl in Hn. lia.
Qed.

Lemma finditer_scan (raw : string) :
  scan digits raw (map (tag_numbers digits) (finditer digits raw)) (sub_empty digits raw).
Proof. apply (scan_upto (String.length raw)). lia. Qed.


Lemma digit_text_range (d : string) (v : Z) :
  digit_text digits d v -> 0 <= v <= 9.
Proof.
  intros [v' Hv | d' v' Hin]; [exact Hv |].
  destruct Hwf as [Hbytes _]. rewrite Forall_forall in Hbytes.
  exact (proj2 (Hbytes _ Hin)).
Qed.

Lemma digit_group_range (g : string) (v : Z) :
  digit_group digits g v -> 0 <= v <= 99.
Proof.
  intros [d v' Hd | d1 d2 v1 v2 Hd1 Hd2].
  - apply digit_text_range in Hd. lia.
  - apply digit_text_range in Hd1, Hd2. lia.
Qed.

Lemma scan_tags_in_range (raw : string) (tags : list (Z * Z * Z))
    (body : string) :
  scan digits raw tags body -> Forall tag_in_range tags.
Proof.
  induction 1 as [| text rest mm ss cs tags body Htag _ IH | c rest tags body _ _ IH];
    [constructor | | exact IH].
  constructor; [| exact IH].
  assert (Hr : 0 <= mm <= 99 /\ 0 <= ss <= 99 /\ 0 <= cs <= 99).
  { destruct Htag as [g1 g2 mm ss Hg1 Hg2 | g1 g2 g3 mm ss cs Hg1 Hg2 Hg3].
    - apply digit_group_range in Hg1, Hg2. lia.
    - apply digit_group_range in Hg1, Hg2, Hg3. lia. }
  exact Hr.
Qed.
End TagFacts.

(** *** The parser *)

(** A line gives one entry per tag that reading it from the left finds,
    at the seconds of that tag, each with the text that is left of the
    line once the tags are taken out and the whitespace at its ends is
    removed. *)
Lemma line_entries_tags (digits : list (string * Z)) (raw : string) :
  wf_digits digits ->
  exists (tags : list (Z * Z * Z)) (body line : string),
    scan digits raw tags body
    /\ stripped_of body line
    /\ LRC.line_entries digits raw = tag_entries tags line
    /\ Forall tag_in_range tags.
Proof.
  intros Hwf.
  exists (map (tag_numbers digits) (finditer digits raw)),
         (sub_empty digits raw), (strip (sub_empty digits raw)).
  split; [apply finditer_scan; exact Hwf |].
  split; [apply strip_stripped |].
  split; [unfold LRC.line_entries, tag_entries; rewrite map_map; reflexivity |].
  eapply scan_tags_in_range; [exact Hwf |]. apply finditer_scan. exact Hwf.
Qed.

Lemma Qle_bool_total (x y : Q) : Qle_bool x y = true \/ Qle_bool y x = true.
Proof.
  destruct (Qlt_le_dec x y) as [Hlt | Hle].
  - left. apply Qle_bool_iff. apply Qlt_le_weak. exact Hlt.
  - right. apply Qle_bool_iff. exact Hle.
Qed.

Lemma Qle_bool_trans (x y z : Q) :
  Qle_bool x y = true -> Qle_bool y z = true -> Qle_bool x z = true.
Proof.
  rewrite !Qle_bool_iff. apply Qle_trans.
Qed.


Lemma arabic_indic_digits_wf : wf_digits arabic_indic_digits.
Proof. apply (bool_decide_unpack _). vm_compute. exact I. Qed.


(** The lines, texts and timestamps of [unicode_lyrics]. *)
Example lrc_unicode_lines :
  splitlines unicode_lyrics
  = ["[00:07.50] b [1:2.25] x"; "no tag [123:00]";
     "[00:03]  first" ++ utf8 12288; "[0:4]x" ++ utf8 160;
     "[" ++ utf8 1633 ++ utf8 1634 ++ ":0" ++ utf8 1635 ++ "]"
       ++ utf8 5760 ++ "q"]%string
  /\ map snd (LRC.parse arabic_indic_digits unicode_lyrics)
     = ["first"; "x"; "b  x"; "b  x"; "q"]%string
  /\ Forall2 Qeq (map fst (LRC.parse arabic_indic_digits unicode_lyrics))
       [3; 4; 7.5; 62.25; 723]%Q.
Proof.
  split; [vm_compute; reflexivity |]. split; [vm_compute; reflexivity |].
  vm_compute. repeat constructor.
Qed.

(** The timestamps are floats: [[00:01.14]] is at 1 + 14/100.0, which is
    the float 1.1400000000000001 and not the number 1.14. *)
Example lrc_timestamp_rounding :
  exists t : Q,
    LRC.parse [] "[00:01.14]x" = [(t, "x"%string)]
    /\ (t == 2567051787601183 # 2251799813685248)%Q
    /\ ~ (t == 1.14)%Q.
Proof.
  eexists. split; [vm_compute; reflexivity |].
  split; [vm_compute; reflexivity | vm_compute; discriminate].
Qed.

(** ** C9: the highlighted lyric line *)

Lemma last_le_from_sorted (sec : Q) (ls : list (Q * string)) (i best : Z) :
  sorted_lyrics ls -> best < i ->
  let k := last_le_from sec ls i best in
  (k = best \/ i <= k) /\ k < i + len ls
  /\ forall (j : nat) e, ls !! j = Some e ->
       (i + Z.of_nat j <= k -> Qle_bool (fst e) sec = true)
       /\ (k < i + Z.of_nat j -> Qle_bool (fst e) sec = false).
Proof.
  intros Hs. revert i best.
  induction Hs as [| e r Hs IH Hall]; intros i best Hlt; simpl.
  - split; [left; reflexivity |]. unfold len. simpl. split; [lia |].
    intros j e Hj. rewrite lookup_nil in Hj. discriminate.
  - rewrite len_cons.
    set (best' := if Qle_bool (fst e) sec then i else best).
    assert (Hb' : best' < i + 1) by (subst best'; destruct (Qle_bool _ _); lia).
    specialize (IH (i + 1) best' Hb'). simpl in IH.
    destruct IH as (Hk & Hhi & Hel).
    set (k := last_le_from sec r (i + 1) best') in *.
    assert (Hhead : (i <= k -> Qle_bool (fst e) sec = true)
                    /\ (k < i -> Qle_bool (fst e) sec = false)).
    { subst best'. destruct (Qle_bool (fst e) sec) eqn:He.
      - split; [reflexivity |]. lia.
      - split; [| reflexivity]. intros Hik.
        destruct Hk as [Hk | Hk]; [lia |].
        assert (Hj : (Z.to_nat (k - (i + 1)) < length r)%nat)
          by (unfold len in Hhi; lia).
        apply lookup_lt_is_Some in Hj. destruct Hj as [e' He'].
        destruct (Hel _ _ He') as [Hle _].
        assert (Hle' : Qle_bool (fst e') sec = true) by (apply Hle; lia).
        rewrite Forall_forall in Hall.
        assert (Hee' : (fst e <= fst e')%Q)
          by (apply Hall; eapply list_elem_of_lookup_2; exact He').
        apply Qle_bool_iff in Hle'.
        assert (Hcontra : Qle_bool (fst e) sec = true)
          by (apply Qle_bool_iff; eapply Qle_trans; eassumption).
        congruence. }
    split.
    { subst best'. destruct (Qle_bool (fst e) sec); lia. }
    split; [lia |].
    intros [| j] e0 Hj; simpl in Hj.
    + injection Hj as <-. rewrite Z.add_0_r. exact Hhead.
    + destruct (Hel _ _ Hj) as [H1 H2]. split; intros; [apply H1 | apply H2]; lia.
Qed.

Lemma active_line_splits (ls : list (Q * string)) (sec : Q) :
  sorted_lyrics ls -> splits_at ls sec (active_line ls sec).
Proof.
  intros Hs. unfold active_line, splits_at.
  destruct (last_le_from_sorted sec ls 0 (-1) Hs ltac:(lia)) as (Hk & Hhi & Hel).
  split; [lia |]. intros j e Hj. destruct (Hel _ _ Hj) as [H1 H2].
  split; intros; [apply H1 | apply H2]; lia.
Qed.

Lemma forward_loop (fuel : nat) (ls : list (Q * string)) (sec : Q) (i k : Z) :
  splits_at ls sec k -> -1 <= i -> (Z.to_nat (k - i) < fuel)%nat ->
  while_loop fuel (LyricsPanel.forward_cond ls sec) (fun i => Ok (i + 1)) i
  = Some (Ok (Z.max i k)).
Proof.
  intros [Hk Hel]. revert i. induction fuel as [| f IH]; intros i Hi Hfuel; [lia |].
  simpl. unfold LyricsPanel.forward_cond.
  destruct (Z.ltb_spec (i + 1) (len ls)) as [Hin | Hout].
  - destruct (py_index_Ok ls (i + 1) ltac:(lia)) as (e & Hlook & ->). simpl.
    destruct (Hel _ _ Hlook) as [Hle Hgt].
    destruct (Z.le_gt_cases (i + 1) k) as [Hik | Hik].
    + rewrite Hle by lia. rewrite IH by lia. do 2 f_equal. lia.
    + rewrite Hgt by lia. do 2 f_equal. lia.
  - do 2 f_equal. lia.
Qed.

Lemma backward_loop (fuel : nat) (ls : list (Q * string)) (sec : Q) (i k : Z) :
  splits_at ls sec k -> k <= i < len ls -> (Z.to_nat i < fuel)%nat ->
  while_loop fuel (LyricsPanel.backward_cond ls sec) (fun i => Ok (i - 1)) i
  = Some (Ok (if 0 <? i then Z.max k 0 else i)).
Proof.
  intros [Hk Hel]. revert i. induction fuel as [| f IH]; intros i Hi Hfuel; [lia |].
  simpl. unfold LyricsPanel.backward_cond.
  destruct (Z.ltb_spec 0 i) as [Hpos | Hnon]; [| reflexivity].
  destruct (py_index_Ok ls i ltac:(lia)) as (e & Hlook & ->). simpl.
  destruct (Hel _ _ Hlook) as [Hle Hgt]. unfold Qgt_bool.
  destruct (Z.le_gt_cases i k) as [Hik | Hik].
  - rewrite Hle by lia. simpl. do 2 f_equal. lia.
  - rewrite Hgt by lia. simpl. rewrite IH by lia.
    destruct (Z.ltb_spec 0 (i - 1)); do 2 f_equal; lia.
Qed.

Lemma tick_runs (fuel : nat) (lp : LyricsPanel.t) (sec : Q) :
  sorted_lyrics (LyricsPanel.lines lp) ->
  LyricsPanel.lines lp <> [] ->
  -1 <= LyricsPanel.idx lp < len (LyricsPanel.lines lp) ->
  (length (LyricsPanel.lines lp) < fuel)%nat ->
  exists lp',
    LyricsPanel._tick fuel (Some sec) lp = Some (Ok lp')
    /\ LyricsPanel.lines lp' = LyricsPanel.lines lp
    /\ LyricsPanel.idx lp'
       = tick_index (LyricsPanel.idx lp) (active_line (LyricsPanel.lines lp) sec)
    /\ (LyricsPanel.idx lp' <> LyricsPanel.idx lp ->
        LyricsPanel.highlighted lp' = Some (LyricsPanel.idx lp')).
Proof.
  intros Hs Hne Hidx Hfuel.
  pose proof (active_line_splits _ sec Hs) as Hsplit.
  set (k := active_line (LyricsPanel.lines lp) sec) in *.
  pose proof Hsplit as [Hk _].
  unfold LyricsPanel._tick.
  destruct (LyricsPanel.lines lp) as [| e0 r] eqn:Hls; [congruence |].
  rewrite <- Hls in *.
  unfold len in Hk, Hidx.
  rewrite (forward_loop fuel _ sec _ k Hsplit) by lia.
  rewrite (backward_loop fuel _ sec _ k Hsplit) by (unfold len; lia).
  set (i := if 0 <? Z.max (LyricsPanel.idx lp) k then Z.max k 0
            else Z.max (LyricsPanel.idx lp) k).
  assert (Hi : i = tick_index (LyricsPanel.idx lp) k).
  { subst i. unfold tick_index.
    destruct (Z.ltb_spec 0 (Z.max (LyricsPanel.idx lp) k));
      destruct (Z.eqb_spec k (-1));
      destruct (Z.eqb_spec (LyricsPanel.idx lp) (-1)); lia. }
  destruct (Z.eqb_spec i (LyricsPanel.idx lp)) as [Heq | Hneq]; simpl.
  - exists lp. rewrite <- Hi. repeat split; congruence.
  - assert (Hrange : 0 <= i < len (LyricsPanel.lines lp)).
    { rewrite Hi. unfold tick_index, len.
      destruct (Z.eqb_spec k (-1));
        destruct (Z.eqb_spec (LyricsPanel.idx lp) (-1)); try lia.
      exfalso. apply Hneq. rewrite Hi. unfold tick_index.
      destruct (Z.eqb_spec k (-1)); destruct (Z.eqb_spec (LyricsPanel.idx lp) (-1)); lia. }
    destruct (Z.leb_spec 0 i); [| lia].
    destruct (Z.ltb_spec i (len (LyricsPanel.lines lp))); [| lia].
    simpl. eexists. split; [reflexivity |]. simpl.
    rewrite <- Hi. repeat split; reflexivity.
Qed.

Lemma last_le_from_mono (sec sec' : Q) (ls : list (Q * string)) (i best best' : Z) :
  (sec <= sec')%Q -> best <= best' < i ->
  last_le_from sec ls i best <= last_le_from sec' ls i best'.
Proof.
  intros Hsec. revert i best best'.
  induction ls as [| e r IH]; intros i best best' Hb; simpl; [lia |].
  apply IH.
  destruct (Qle_bool (fst e) sec) eqn:He.
  - assert (He' : Qle_bool (fst e) sec' = true).
    { apply Qle_bool_iff. apply Qle_bool_iff in He. eapply Qle_trans; eassumption. }
    rewrite He'. lia.
  - destruct (Qle_bool (fst e) sec'); lia.
Qed.

Lemma active_line_mono (ls : list (Q * string)) (sec sec' : Q) :
  (sec <= sec')%Q -> active_line ls sec <= active_line ls sec'.
Proof.
  intros Hsec. unfold active_line. apply last_le_from_mono; [exact Hsec | lia].
Qed.

Lemma active_line_lower (ls : list (Q * string)) (sec : Q) :
  -1 <= active_line ls sec.
Proof.
  unfold active_line.
  assert (H : forall i best, -1 <= best -> 0 <= i -> -1 <= last_le_from sec ls i best).
  { induction ls as [| e r IH]; intros i best Hb Hi; simpl; [lia |].
    apply IH; [destruct (Qle_bool _ _); lia | lia]. }
  apply H; lia.
Qed.

(** C9, as amended.  For a sorted, non-empty lyrics document and an index
    in range, one tick leaves the panel on the last entry whose timestamp
    is at most the position whenever there is such an entry, and
    highlights it when the index changed.  When the position is before the
    first timestamp the index stays at -1 if nothing was active, and
    otherwise falls back to the first line.  A later tick at a larger
    position never moves the index down, and one at a smaller position
    never moves it up. *)
Theorem tick_active_line (fuel : nat) (lp : LyricsPanel.t) (sec : Q) :
  sorted_lyrics (LyricsPanel.lines lp) ->
  LyricsPanel.lines lp <> [] ->
  -1 <= LyricsPanel.idx lp < len (LyricsPanel.lines lp) ->
  (length (LyricsPanel.lines lp) < fuel)%nat ->
  let k := active_line (LyricsPanel.lines lp) sec in
  exists lp',
    LyricsPanel._tick fuel (Some sec) lp = Some (Ok lp')
    /\ LyricsPanel.lines lp' = LyricsPanel.lines lp
    /\ (k <> -1 -> LyricsPanel.idx lp' = k)
    /\ (k = -1 ->
        LyricsPanel.idx lp' = if LyricsPanel.idx lp =? -1 then -1 else 0)
    /\ (LyricsPanel.idx lp' <> LyricsPanel.idx lp ->
        LyricsPanel.highlighted lp' = Some (LyricsPanel.idx lp'))
    /\ forall sec2 : Q,
         exists lp'',
           LyricsPanel._tick fuel (Some sec2) lp' = Some (Ok lp'')
           /\ ((sec <= sec2)%Q -> LyricsPanel.idx lp' <= LyricsPanel.idx lp'')
           /\ ((sec2 <= sec)%Q -> LyricsPanel.idx lp'' <= LyricsPanel.idx lp').
Proof.
  intros Hs Hne Hidx Hfuel k.
  destruct (tick_runs fuel lp sec Hs Hne Hidx Hfuel) as (lp' & Hrun & Hl & Hi & Hh).
  fold k in Hi.
  pose proof (active_line_splits _ sec Hs) as [Hk _]. fold k in Hk.
  exists lp'. split; [exact Hrun |]. split; [exact Hl |].
  split; [| split; [| split; [exact Hh |]]].
  - intros Hk1. rewrite Hi. unfold tick_index.
    destruct (Z.eqb_spec k (-1)); [contradiction | reflexivity].
  - intros Hk1. rewrite Hi. unfold tick_index.
    destruct (Z.eqb_spec k (-1)); [reflexivity | contradiction].
  - intros sec2.
    assert (Hidx' : -1 <= LyricsPanel.idx lp' < len (LyricsPanel.lines lp')).
    { rewrite Hl, Hi. unfold tick_index.
      assert (0 < len (LyricsPanel.lines lp)).
      { destruct (LyricsPanel.lines lp); [congruence |]. rewrite len_cons.
        pose proof (len_nonneg l). lia. }
      destruct (Z.eqb_spec k (-1)); destruct (Z.eqb_spec (LyricsPanel.idx lp) (-1)); lia. }
    rewrite <- Hl in Hs, Hne, Hfuel.
    destruct (tick_runs fuel lp' sec2 Hs Hne Hidx' Hfuel) as (lp'' & Hrun2 & _ & Hi2 & _).
    exists lp''. split; [exact Hrun2 |].
    rewrite Hi2, Hl. fold k.
    pose proof (active_line_lower (LyricsPanel.lines lp) sec2) as Hlow2.
    set (k2 := active_line (LyricsPanel.lines lp) sec2) in *.
    split; intros Hsec.
    + pose proof (active_line_mono (LyricsPanel.lines lp) _ _ Hsec) as Hm.
      fold k k2 in Hm. rewrite Hi. unfold tick_index.
      repeat match goal with
             | |- context [Z.eqb ?a ?b] => destruct (Z.eqb_spec a b)
             end; lia.
    + pose proof (active_line_mono (LyricsPanel.lines lp) _ _ Hsec) as Hm.
      fold k k2 in Hm. rewrite Hi. unfold tick_index.
      repeat match goal with
             | |- context [Z.eqb ?a ?b] => destruct (Z.eqb_spec a b)
             end; lia.
Qed.

Lemma tick_active_line_witness :
  sorted_lyrics (LyricsPanel.lines two_lines_second_active)
  /\ exists lp',
       LyricsPanel._tick 3 (Some 7%Q) two_lines_second_active = Some (Ok lp')
       /\ LyricsPanel.lines lp' = LyricsPanel.lines two_lines_second_active.
Proof.
  assert (Hs : sorted_lyrics (LyricsPanel.lines two_lines_second_active)).
  { unfold sorted_lyrics. simpl. repeat constructor. unfold Qle. simpl. lia. }
  split; [exact Hs |].
  assert (Hne : LyricsPanel.lines two_lines_second_active <> []) by discriminate.
  assert (Hidx : -1 <= LyricsPanel.idx two_lines_second_active
                 < len (LyricsPanel.lines two_lines_second_active)).
  { simpl. unfold len. simpl. lia. }
  assert (Hfuel : (length (LyricsPanel.lines two_lines_second_active) < 3)%nat).
  { simpl. lia. }
  destruct (tick_active_line 3 two_lines_second_active 7%Q Hs Hne Hidx Hfuel)
    as (lp' & Hrun & Hl & _).
  exists lp'. split; [exact Hrun | exact Hl].
Defined.

(** C9 as stated fails after a seek to before the first timestamp: with
    the second line active and the position at 2 seconds no entry is at or
    before the position, yet the tick highlights the first line, whose
    timestamp is 5. *)
Lemma seek_before_first_line_counterexample :
  active_line (LyricsPanel.lines two_lines_second_active) 2%Q = -1
  /\ exists lp',
       LyricsPanel._tick 3 (Some 2%Q) two_lines_second_active = Some (Ok lp')
       /\ LyricsPanel.idx lp' = 0
       /\ LyricsPanel.highlighted lp' = Some 0
       /\ LyricsPanel.lines lp' !! 0%nat = Some (5%Q, "a"%string)
       /\ Qle_bool 5 2 = false
       /\ LyricsPanel.idx lp'
          <> active_line (LyricsPanel.lines two_lines_second_active) 2%Q.
Proof.
  split; [reflexivity |]. eexists. split; [reflexivity |]. simpl.
  repeat split; try reflexivity. discriminate.
Qed.

(** ** C10: saving and loading the state *)

Lemma from_dict_to_dict (t : Track) : from_dict (to_dict t) = t.
Proof. destruct t. reflexivity. Qed.

Lemma map_from_dict_to_dict (q : list Track) : map from_dict (map to_dict q) = q.
Proof.
  rewrite map_map. rewrite <- (map_id q) at 2. apply map_ext.
  intros t. apply from_dict_to_dict.
Qed.

Lemma add_playlists_pls (l : list (string * list track_dict)) (pp : PlaylistsPane.t) :
  PlaylistsPane._pls
    (foldl (fun pp '(name, arr) =>
              PlaylistsPane.add_playlist name (map from_dict arr) pp) pp l)
  = foldl (fun m '(name, arr) => <[name := map from_dict arr]> m)
          (PlaylistsPane._pls pp) l.
Proof.
  revert pp. induction l as [| [name arr] l IH]; intros pp; simpl; [reflexivity |].
  rewrite IH. reflexivity.
Qed.

Lemma foldl_insert_union {V W} (f : V -> W) (l : list (string * V))
    (m0 : gmap string W) :
  NoDup l.*1 ->
  foldl (fun m '(k, v) => <[k := f v]> m) m0 l
  = list_to_map (prod_map id f <$> l) ∪ m0.
Proof.
  revert m0. induction l as [| [k v] l IH]; intros m0 Hnd.
  - simpl. rewrite (left_id_L ∅ (∪)). reflexivity.
  - rewrite fmap_cons in Hnd. apply NoDup_cons in Hnd. destruct Hnd as [Hk Hnd].
    simpl in Hk. simpl. rewrite IH by exact Hnd.
    rewrite <- insert_union_l. symmetry. apply insert_union_r.
    apply not_elem_of_list_to_map_1.
    rewrite <- list_fmap_compose.
    intros Hin. apply Hk. apply list_elem_of_fmap in Hin.
    destruct Hin as ([k' v'] & Heq & Hin). simpl in Heq. subst k'.
    apply list_elem_of_fmap. exists (k, v'). split; [reflexivity | exact Hin].
Qed.

Lemma load_saved_playlists (m : gmap string (list Track)) :
  foldl (fun m '(name, arr) => <[name := map from_dict arr]> m) ∅
        (map_to_list (map to_dict <$> m))
  = m.
Proof.
  rewrite (foldl_insert_union (map from_dict)) by apply NoDup_fst_map_to_list.
  rewrite (right_id_L ∅ (∪)).
  rewrite list_to_map_fmap, list_to_map_to_list.
  rewrite <- map_fmap_compose.
  rewrite <- (map_fmap_id m) at 2. apply map_fmap_ext.
  intros name q _. simpl. apply map_from_dict_to_dict.
Qed.

(** C10, as amended.  Saving a state whose play index is valid and loading
    it into a freshly started window reproduces equal playlists, an equal
    queue and an equal play index, and the saved folders list when that
    list is not empty; an empty saved folders list leaves the folders found
    at start in place.  Without a state file the window keeps its start
    values: the folders found at start, no playlists, an empty queue and
    index 0. *)
Theorem save_load_round_trip (env : Env) (w : MainWindow.t) (found : list string) :
  queue_invariant w ->
  let start := MainWindow.init env found in
  let w' := MainWindow._load_state env (Some (MainWindow._save_state w)) start in
  LibraryPane.folders (MainWindow.library w')
  = match LibraryPane.folders (MainWindow.library w) with
    | [] => found
    | fs => fs
    end
  /\ PlaylistsPane._pls (MainWindow.playlists w')
     = PlaylistsPane._pls (MainWindow.playlists w)
  /\ MainWindow._queue w' = MainWindow._queue w
  /\ MainWindow._play_index w' = MainWindow._play_index w
  /\ MainWindow._load_state env None start = start
  /\ LibraryPane.folders (MainWindow.library start) = found
  /\ PlaylistsPane._pls (MainWindow.playlists start) = ∅
  /\ MainWindow._queue start = []
  /\ MainWindow._play_index start = 0.
Proof.
  intros Hinv start w'.
  assert (Hpls : PlaylistsPane._pls
                   (foldl (fun pp '(name, arr) =>
                             PlaylistsPane.add_playlist name (map from_dict arr) pp)
                          PlaylistsPane.init
                          (map_to_list (map to_dict
                             <$> PlaylistsPane._pls (MainWindow.playlists w))))
                 = PlaylistsPane._pls (MainWindow.playlists w)).
  { rewrite add_playlists_pls. apply load_saved_playlists. }
  subst w'. unfold MainWindow._load_state, MainWindow._save_state.
  cbn [f_folders f_playlists f_queue f_play_index from_option id].
  unfold queue_invariant, valid_index in Hinv.
  destruct (MainWindow._queue w) as [| x q] eqn:Hq.
  - cbn [map]. cbn.
    split; [destruct (LibraryPane.folders (MainWindow.library w)); reflexivity |].
    split; [exact Hpls |]. split; [reflexivity |]. split; [congruence |].
    repeat split; reflexivity.
  - cbn [map]. rewrite from_dict_to_dict, map_from_dict_to_dict.
    unfold MainWindow._sync_queue_table, MainWindow.set_queue.
    cbn [MainWindow._queue MainWindow._play_index MainWindow.library
         MainWindow.playlists].
    split; [destruct (LibraryPane.folders (MainWindow.library w)); reflexivity |].
    split; [exact Hpls |]. split; [reflexivity |].
    split; [lia |]. repeat split; reflexivity.
Qed.

Lemma save_load_round_trip_witness :
  queue_invariant window_without_folders
  /\ MainWindow._queue
       (MainWindow._load_state demo_env
          (Some (MainWindow._save_state window_without_folders))
          (MainWindow.init demo_env []))
     = [song_a; song_b].
Proof.
  assert (Hinv : queue_invariant window_without_folders).
  { unfold queue_invariant, valid_index. simpl. unfold len. simpl. lia. }
  split; [exact Hinv |].
  exact (proj1 (proj2 (proj2
           (save_load_round_trip demo_env window_without_folders [] Hinv)))).
Defined.

(** C10 as stated fails on the folders: started where a music folder is
    found, a missing state file leaves that folder in the list, and a saved
    state with no folders loads to that folder as well. *)
Lemma start_folders_counterexample :
  ~ empty_defaults (MainWindow._load_state demo_env None start_with_music_folder)
  /\ queue_invariant window_without_folders
  /\ LibraryPane.folders (MainWindow.library window_without_folders) = []
  /\ LibraryPane.folders
       (MainWindow.library
          (MainWindow._load_state demo_env
             (Some (MainWindow._save_state window_without_folders))
             start_with_music_folder))
     = ["/home/u/Music"%string].
Proof.
  split.
  - intros (Hf & _). discriminate Hf.
  - split.
    + unfold queue_invariant, valid_index. simpl. unfold len. simpl. lia.
    + split; reflexivity.
Qed.
